(** * Customer filter CLI (src/main.py): a shallow embedding and its properties

    The development follows the layout of [src/main.py]:

    - [Py]: the few pieces of Python the program relies on: [None] versus
      [str] values, truthiness, [dict.get], the exception outcome of a call,
      list comprehensions whose condition may raise, and the built-in
      [int(str)];
    - [Main]: [filter_customers] and [process_command], translated line by
      line;
    - [Cli]: the functions that touch files, and [main];
    - the theorems about them.

    A [string] is the UTF-8 encoding of a Python [str].  The built-in [int]
    is the one of CPython 3.11 with its default settings: Unicode 14.0 white
    space and decimal digits, and at most 4300 digits in a literal.
    [Main.process_command] takes the loaded rows as an argument and yields
    the rows it hands to [save_results]; [Cli] adds [load_customers],
    [save_results] and [main] over an environment that answers for the file
    system, the CSV reader, the JSON writer and [argparse]. *)

From Stdlib Require Import ZArith Ascii String List DecimalString DecimalZ.
From stdpp Require Import base option list strings gmap.

Local Open Scope string_scope.
Local Open Scope Z_scope.

(** ** Python preliminaries *)

Module Py.

(** A field value as [csv.DictReader] produces it: text, or [None] for a
    column that a short row does not reach.  [None] is also what [dict.get]
    answers for an absent key and the default of the [country] argument. *)
Inductive value : Type :=
  | VNone
  | VStr (s : string).

#[global] Instance value_eq_dec : EqDecision value.
Proof. solve_decision. Defined.

(** Exceptions that the code of [filter_customers] can meet. *)
Inductive exn : Type :=
  | ValueError (literal : string)   (* invalid literal for int() with base 10 *)
  | TypeError.                      (* int() argument must be a string ... *)

(** The outcome of a call: a returned value or a propagating exception. *)
Inductive result (A : Type) : Type :=
  | Ok (a : A)
  | Raise (e : exn).
Arguments Ok {A} a.
Arguments Raise {A} e.

#[global] Instance exn_eq_dec : EqDecision exn.
Proof. solve_decision. Defined.

#[global] Instance result_eq_dec {A} `{EqDecision A} : EqDecision (result A).
Proof. solve_decision. Defined.

Definition bind {A B} (r : result A) (k : A → result B) : result B :=
  match r with
  | Ok a => k a
  | Raise e => Raise e
  end.

Notation "x ←ᵣ r ; k" := (bind r (λ x, k))
  (at level 100, r at next level, k at level 200, right associativity).

Definition returns {A} (r : result A) : Prop := ∃ a, r = Ok a.
Definition raises {A} (r : result A) : Prop := ∃ e, r = Raise e.

(** Truthiness of a value: [None] and [''] are false, other text is true. *)
Definition truthy (v : value) : bool :=
  match v with
  | VNone => false
  | VStr s => negb (String.eqb s "")
  end.

(** [v == w] on values: text equals text character by character, and
    [None] equals only [None]. *)
Definition eqb (v w : value) : bool :=
  match v, w with
  | VNone, VNone => true
  | VStr s, VStr t => String.eqb s t
  | _, _ => false
  end.

(** *** The built-in [int] on text

    A [string] holds the UTF-8 encoding of a Python [str].  CPython 3.11
    ([PyLong_FromUnicodeObject], base 10) first replaces every non-ASCII
    white space by a space and every non-ASCII decimal digit (Unicode 14.0)
    by its ASCII digit, then reads: white space (tab, line feed, vertical
    tab, form feed, carriage return, space), an optional sign, one or more
    digits in which single underscores may separate two digits, white space,
    end of text.  Anything else is a [ValueError], and so is a literal of
    more than [sys.get_int_max_str_digits()] digits (4300 unless the
    interpreter is configured otherwise; the program leaves it alone). *)

(** The state of the UTF-8 decoder: between characters, or inside one with
    [more] continuation bytes to come after the next, the bits read so far,
    and the least code point that this length may encode. *)
Inductive utf8_state : Type :=
  | Start
  | Pending (more : nat) (bits : N) (least : N).

Definition is_continuation (n : N) : bool := ((128 <=? n) && (n <=? 191))%N.

(** A code point that UTF-8 may encode with the length at hand: not
    overlong, not a surrogate, at most U+10FFFF. *)
Definition scalar_value (cp least : N) : bool :=
  ((least <=? cp) && (cp <=? 1114111) &&
   negb ((55296 <=? cp) && (cp <=? 57343)))%N.

(** The code points of a UTF-8 text; [None] for bytes that encode no
    [str]. *)
Fixpoint utf8_decode_from (st : utf8_state) (bs : list ascii)
    : option (list N) :=
  match bs with
  | [] =>
      match st with
      | Start => Some []
      | Pending _ _ _ => None
      end
  | b :: t =>
      let n := N_of_ascii b in
      match st with
      | Start =>
          if (n <? 128)%N then
            option_map (cons n) (utf8_decode_from Start t)
          else if ((194 <=? n) && (n <=? 223))%N then
            utf8_decode_from (Pending 0 (n - 192) 128) t
          else if ((224 <=? n) && (n <=? 239))%N then
            utf8_decode_from (Pending 1 (n - 224) 2048) t
          else if ((240 <=? n) && (n <=? 244))%N then
            utf8_decode_from (Pending 2 (n - 240) 65536) t
          else None
      | Pending more bits least =>
          if is_continuation n then
            let bits' := (bits * 64 + (n - 128))%N in
            match more with
            | O =>
                if scalar_value bits' least
                then option_map (cons bits') (utf8_decode_from Start t)
                else None
            | S more' => utf8_decode_from (Pending more' bits' least) t
            end
          else None
      end
  end.

Definition utf8_decode (bs : list ascii) : option (list N) :=
  utf8_decode_from Start bs.

(** [Py_UNICODE_ISSPACE] above U+007F. *)
Definition unicode_space (cp : N) : bool :=
  ((cp =? 133) || (cp =? 160) || (cp =? 5760) ||
   ((8192 <=? cp) && (cp <=? 8202)) || (cp =? 8232) || (cp =? 8233) ||
   (cp =? 8239) || (cp =? 8287) || (cp =? 12288))%N.

(** The code points of the digit zero of every non-ASCII decimal digit
    block of Unicode 14.0; the digits one to nine follow each of them. *)
Definition unicode_zeros : list N :=
  [1632; 1776; 1984; 2406; 2534; 2662; 2790; 2918; 3046; 3174; 3302; 3430;
   3558; 3664; 3792; 3872; 4160; 4240; 6112; 6160; 6470; 6608; 6784; 6800;
   6992; 7088; 7232; 7248; 42528; 43216; 43264; 43472; 43504; 43600; 44016;
   65296; 66720; 68912; 69734; 69872; 69942; 70096; 70384; 70736; 70864;
   71248; 71360; 71472; 71904; 72016; 72784; 73040; 73120; 92768; 92864;
   93008; 120782; 120792; 120802; 120812; 120822; 123200; 123632; 125264;
   130032]%N.

(** [Py_UNICODE_TODECIMAL] above U+007F. *)
Definition unicode_decimal (cp : N) : option N :=
  option_map (λ z, cp - z)%N
    (List.find (λ z, (z <=? cp) && (cp <=? z + 9))%N unicode_zeros).

(** One character of [_PyUnicode_TransformDecimalAndSpaceToASCII]; a
    character that is neither ASCII, white space nor a decimal digit becomes
    a question mark, which no literal contains. *)
Definition to_ascii (cp : N) : ascii :=
  if (cp <? 128)%N then ascii_of_N cp
  else if unicode_space cp then " "%char
  else
    match unicode_decimal cp with
    | Some d => ascii_of_N (48 + d)
    | None => "?"%char
    end.

Definition is_space (c : ascii) : bool :=
  let n := N_of_ascii c in
  (((9 <=? n) && (n <=? 13)) || (n =? 32))%N.

Definition digit_val (c : ascii) : option Z :=
  let n := N_of_ascii c in
  if ((48 <=? n) && (n <=? 57))%N then Some (Z.of_N n - 48) else None.

Definition is_underscore (c : ascii) : bool := Ascii.eqb c "_"%char.

Fixpoint skip_space (cs : list ascii) : list ascii :=
  match cs with
  | c :: t => if is_space c then skip_space t else cs
  | [] => []
  end.

(** Reads the rest of a digit run once its first digit has been consumed;
    [None] when an underscore is not followed by a digit. *)
Fixpoint scan_digits (acc : Z) (cs : list ascii) : option (Z * list ascii) :=
  match cs with
  | [] => Some (acc, [])
  | c :: t =>
      match digit_val c with
      | Some d => scan_digits (10 * acc + d) t
      | None =>
          if is_underscore c then
            match t with
            | c' :: t' =>
                match digit_val c' with
                | Some d => scan_digits (10 * acc + d) t'
                | None => None
                end
            | [] => None
            end
          else Some (acc, cs)
      end
  end.

(** The number of digits in the leading run of digits and underscores. *)
Fixpoint count_digits (cs : list ascii) : N :=
  match cs with
  | [] => 0
  | c :: t =>
      match digit_val c with
      | Some _ => (1 + count_digits t)%N
      | None => if is_underscore c then count_digits t else 0%N
      end
  end.

(** The default of [sys.get_int_max_str_digits()]. *)
Definition int_max_str_digits : N := 4300.

Definition scan_sign (cs : list ascii) : bool * list ascii :=
  match cs with
  | "-"%char :: t => (true, t)
  | "+"%char :: t => (false, t)
  | _ => (false, cs)
  end.

(** The digits after the sign, then white space up to the end of the text;
    a literal with too many digits is refused. *)
Definition scan_number (neg : bool) (ds : list ascii) : option Z :=
  match ds with
  | c :: t =>
      match digit_val c with
      | Some d =>
          match scan_digits d t with
          | Some (n, rest) =>
              match skip_space rest with
              | [] =>
                  if (count_digits ds <=? int_max_str_digits)%N
                  then Some (if neg then - n else n)
                  else None
              | _ :: _ => None
              end
          | None => None
          end
      | None => None
      end
  | [] => None
  end.

Definition int_of_chars (cs : list ascii) : option Z :=
  let '(neg, ds) := scan_sign (skip_space cs) in
  scan_number neg ds.

Definition int_of_string (s : string) : option Z :=
  match utf8_decode (list_ascii_of_string s) with
  | Some cps => int_of_chars (List.map to_ascii cps)
  | None => None
  end.

(** [int(v)]: a [TypeError] on [None], a [ValueError] on text that is not an
    integer literal. *)
Definition int (v : value) : result Z :=
  match v with
  | VNone => Raise TypeError
  | VStr s =>
      match int_of_string s with
      | Some n => Ok n
      | None => Raise (ValueError s)
      end
  end.

(** The line terminator written by [print]. *)
Definition newline : string := String "010"%char EmptyString.

(** [str(n)] for an integer. *)
Definition str (n : Z) : string := NilZero.string_of_int (Z.to_int n).

(** [sep.join(l)]. *)
Fixpoint join (sep : string) (l : list string) : string :=
  match l with
  | [] => ""
  | [s] => s
  | s :: t => s ++ sep ++ join sep t
  end.

(** [[c for c in l if cond(c)]] where [cond] may raise: elements are visited
    from the left and the first exception ends the comprehension. *)
Fixpoint comprehension {A} (cond : A → result bool) (l : list A)
    : result (list A) :=
  match l with
  | [] => Ok []
  | c :: t =>
      b ←ᵣ cond c;
      rest ←ᵣ comprehension cond t;
      Ok (if b : bool then c :: rest else rest)
  end.

End Py.

(** ** src/main.py *)

Module Main.
Import Py.

(** A customer row: the dictionary built by [csv.DictReader]. *)
Abbreviation record := (gmap string value).

(** [c.get(key)]: [None] for an absent key. *)
Definition get (c : record) (key : string) : value :=
  default VNone (c !! key).

(** The condition of the first comprehension (line 36):
    [c.get('country') == country]. *)
Definition country_cond (country : value) (c : record) : bool :=
  eqb (get c "country") country.

(** The condition of the second comprehension (line 40):
    [c.get('age') and int(c.get('age')) >= min_age]. *)
Definition age_cond (min_age : Z) (c : record) : result bool :=
  if truthy (get c "age")
  then n ←ᵣ int (get c "age"); Ok (min_age <=? n)%Z
  else Ok false.

(** [filter_customers] (lines 29-42).  [country] is text or [None] (the
    default); [min_age] is an integer or [None] (the default). *)
Definition filter_customers (customers : list record)
    (country : value) (min_age : option Z) : result (list record) :=
  let filtered := customers in
  let filtered :=
    if truthy country
    then List.filter (country_cond country) filtered
    else filtered in
  match min_age with
  | Some m => comprehension (age_cond m) filtered
  | None => Ok filtered
  end.

(** The parsed command line of the [process] subcommand: [--input] and
    [--output] are required, [--country] and [--min-age] default to [None]. *)
Record Namespace : Type := {
  input : string;
  output : string;
  country : value;
  min_age : option Z
}.

(** Truthiness of [args.min_age]: [None] and [0] are false. *)
Definition int_truthy (n : option Z) : bool :=
  match n with
  | None => false
  | Some k => negb (k =? 0)%Z
  end.

(** [f"{v}"] for a value and for an optional integer. *)
Definition format_value (v : value) : string :=
  match v with
  | VNone => "None"
  | VStr s => s
  end.

Definition format_int (n : option Z) : string :=
  match n with
  | None => "None"
  | Some k => str k
  end.

(** The list [filters] built on lines 65-69. *)
Definition filter_descriptions (args : Namespace) : list string :=
  let filters := [] in
  let filters :=
    if truthy (country args)
    then (filters ++ [("country=" ++ format_value (country args))%string])%list
    else filters in
  let filters :=
    if int_truthy (min_age args)
    then (filters ++ [("min_age=" ++ format_int (min_age args))%string])%list
    else filters in
  filters.

(** What lines 63-74 print: the retained count and the filter description. *)
Definition filtered_line (args : Namespace) (filtered : list record) : string :=
  let filters := filter_descriptions args in
  "Filtered to " ++ str (Z.of_nat (length filtered)) ++ " customers" ++
  match filters with
  | _ :: _ => " (" ++ join ", " filters ++ ")" ++ newline
  | [] => newline
  end.

(** One run of [process_command]: the text written to standard output, and
    either the rows handed to [save_results] or the exception that left
    [filter_customers]. *)
Record run : Type := {
  stdout : string;
  outcome : result (list record)
}.

(** [process_command] (lines 55-78).  File access is outside the model:
    [customers] stands for the rows that [load_customers] returned and
    [save_results] is taken to succeed. *)
Definition process_command (args : Namespace) (customers : list record) : run :=
  let out1 :=
    "Loaded " ++ str (Z.of_nat (length customers)) ++ " customers from " ++
    input args ++ newline in
  match filter_customers customers (country args) (min_age args) with
  | Raise e => {| stdout := out1; outcome := Raise e |}
  | Ok filtered =>
      let out2 := out1 ++ filtered_line args filtered in
      let out3 := out2 ++ "Results saved to " ++ output args ++ newline in
      {| stdout := out3; outcome := Ok filtered |}
  end.

End Main.

(** ** src/main.py with its files: [load_customers], [save_results], [main]

    The file system, the CSV reader and the JSON writer are the environment
    of a run.  What the program does is recorded as it goes: the text on
    standard output and on standard error, and the data that [json.dump]
    wrote and to which path.  [sys.exit] and an exception nobody catches end
    the run. *)

Module Cli.
Import Py Main.

(** What [open(input_path)] followed by the iteration over
    [csv.DictReader] comes to: the rows, [FileNotFoundError], or another
    [Exception] with its message [str(e)] (raised by [open] or while rows
    are read). *)
Inductive read_result : Type :=
  | Rows (rows : list record)
  | NotFound
  | ReadError (e : string).

(** What [open(output_path, 'w')] followed by [json.dump] comes to. *)
Inductive write_result : Type :=
  | Written
  | WriteError (e : string).

Record env : Type := {
  read_csv : string → read_result;
  write_json : string → list record → write_result
}.

(** The observable effects of a run so far. *)
Record effects : Type := {
  out : string;                          (* sys.stdout *)
  err : string;                          (* sys.stderr, as the program writes it *)
  saved : list (string * list record)    (* completed json.dump calls, oldest first *)
}.

Definition no_effects : effects := {| out := ""; err := ""; saved := [] |}.

(** What ends a run early: [SystemExit] raised by [sys.exit], or an
    exception that no handler catches. *)
Inductive signal : Type :=
  | SystemExit (code : Z)
  | Uncaught (e : exn).

(** A computation with effects that returns or is ended by a signal. *)
Definition io (A : Type) : Type := effects → effects * (A + signal).

Definition ret {A} (a : A) : io A := λ fx, (fx, inl a).

Definition seq {A B} (c : io A) (k : A → io B) : io B :=
  λ fx,
    match c fx with
    | (fx', inl a) => k a fx'
    | (fx', inr sg) => (fx', inr sg)
    end.

Notation "x ←ᵢ c ; k" := (seq c (λ x, k))
  (at level 100, c at next level, k at level 200, right associativity).
Notation "c ;;ᵢ k" := (seq c (λ _, k))
  (at level 100, k at level 200, right associativity).

(** [print(s, end=e)] and [print(s, file=sys.stderr)]. *)
Definition print_end (s e : string) : io unit :=
  λ fx, ({| out := out fx ++ s ++ e; err := err fx; saved := saved fx |},
         inl tt).

Definition print (s : string) : io unit := print_end s newline.

Definition eprint (s : string) : io unit :=
  λ fx, ({| out := out fx; err := err fx ++ s ++ newline; saved := saved fx |},
         inl tt).

Definition sys_exit {A} (code : Z) : io A := λ fx, (fx, inr (SystemExit code)).

(** A call of a function that may raise, outside any [try]. *)
Definition call {A} (r : result A) : io A :=
  λ fx,
    match r with
    | Ok a => (fx, inl a)
    | Raise e => (fx, inr (Uncaught e))
    end.

Definition dumped (path : string) (data : list record) : io unit :=
  λ fx, ({| out := out fx; err := err fx;
            saved := (saved fx ++ [(path, data)])%list |}, inl tt).

(** [load_customers] (lines 12-26). *)
Definition load_customers (w : env) (input_path : string)
    : io (list record) :=
  match read_csv w input_path with
  | Rows customers => ret customers
  | NotFound =>
      eprint ("Error: Input file '" ++ input_path ++ "' not found.") ;;ᵢ
      sys_exit 1
  | ReadError e =>
      eprint ("Error reading input file: " ++ e) ;;ᵢ
      sys_exit 1
  end.

(** [save_results] (lines 45-52). *)
Definition save_results (w : env) (output_path : string)
    (data : list record) : io unit :=
  match write_json w output_path data with
  | Written => dumped output_path data
  | WriteError e =>
      eprint ("Error writing output file: " ++ e) ;;ᵢ
      sys_exit 1
  end.

(** [process_command] (lines 55-78), with its file accesses. *)
Definition process_command (w : env) (args : Namespace) : io unit :=
  customers ←ᵢ load_customers w (input args);
  print ("Loaded " ++ str (Z.of_nat (length customers)) ++
         " customers from " ++ input args) ;;ᵢ
  filtered ←ᵢ call (filter_customers customers (country args) (min_age args));
  print_end ("Filtered to " ++ str (Z.of_nat (length filtered)) ++
             " customers") "" ;;ᵢ
  let filters := filter_descriptions args in
  match filters with
  | _ :: _ => print (" (" ++ join ", " filters ++ ")")
  | [] => print ""
  end ;;ᵢ
  save_results w (output args) filtered ;;ᵢ
  print ("Results saved to " ++ output args).

(** What [parser.parse_args()] (line 114) comes to: it returns with the
    [process] subcommand and its arguments, or with no subcommand
    ([args.command] is [None]); or it ends the run itself, with status 0
    after writing the help text asked for by [-h] to standard output, or
    with status 2 after writing a usage message to standard error. *)
Inductive command : Type :=
  | Process (args : Namespace)
  | NoCommand
  | Help (text : string)
  | UsageError (text : string).

(** [sys.stderr.write(s)]. *)
Definition eprint_end (s e : string) : io unit :=
  λ fx, ({| out := out fx; err := err fx ++ s ++ e; saved := saved fx |},
         inl tt).

(** [main] (lines 81-120); [help] is the text that [parser.print_help()]
    writes on line 119. *)
Definition main (w : env) (help : string) (cmd : command) : io unit :=
  match cmd with
  | Process args => process_command w args
  | NoCommand => print_end help "" ;;ᵢ sys_exit 1
  | Help text => print_end text "" ;;ᵢ sys_exit 0
  | UsageError text => eprint_end text "" ;;ᵢ sys_exit 2
  end.


(** One run of the program from a fresh process. *)
Definition run_main (w : env) (help : string) (cmd : command)
    : effects * (unit + signal) :=
  main w help cmd no_effects.

End Cli.

(** ** Notions used in the statements *)

Import Py Main.

(** The verdict of line 40 on one row, [False] standing in where the
    condition raises. *)
Definition age_verdict (m : Z) (c : record) : bool :=
  match age_cond m c with
  | Ok b => b
  | Raise _ => false
  end.

(** The rows that reach line 39: those left by the country stage. *)
Definition country_stage (country : value) (customers : list record)
    : list record :=
  if truthy country
  then List.filter (country_cond country) customers
  else customers.

(** The country stage keeps a row when the criterion is inactive or the row
    matches. *)
Definition country_verdict (country : value) (c : record) : bool :=
  negb (truthy country) || country_cond country c.

Definition min_age_verdict (min_age : option Z) (c : record) : bool :=
  match min_age with
  | Some m => age_verdict m c
  | None => true
  end.

(** No usable 'age' entry: the key is absent, or the column is [None]. *)
Definition age_absent (c : record) : Prop :=
  c !! "age" = None ∨ c !! "age" = Some VNone.

(** The 'age' entry is the empty text. *)
Definition age_empty (c : record) : Prop := c !! "age" = Some (VStr "").

(** Text made of white space only, ASCII or not, as [int] sees it. *)
Definition blank (w : string) : Prop :=
  match utf8_decode (list_ascii_of_string w) with
  | Some cps => forallb (λ cp, is_space (to_ascii cp)) cps = true
  | None => False
  end.

(** A row as the tests of the repository write it. *)
Definition customer (name age country : string) : record :=
  <["name" := VStr name]>
    (<["age" := VStr age]> (<["country" := VStr country]> ∅)).

(** The four rows of [test_filter_by_country_and_min_age]. *)
Definition test_customers : list record :=
  [ customer "John" "25" "USA"; customer "Jane" "30" "Canada";
    customer "Bob" "18" "USA"; customer "Alice" "22" "USA" ].

(** The spec's [intersection_preserving_order]: the elements of the first
    list that also occur in the second, in the order of the first. *)
Definition intersection_preserving_order (a b : list record) : list record :=
  List.filter (λ c, bool_decide (c ∈ b)) a.

(** The right-hand side of the spec's conjunctivity equation: both
    single-criterion calls are made, then their results are intersected. *)
Definition conjunctive_rhs (customers : list record)
    (country : value) (min_age : option Z) : result (list record) :=
  a ←ᵣ filter_customers customers country None;
  b ←ᵣ filter_customers customers VNone min_age;
  Ok (intersection_preserving_order a b).

(** The two row tests of [filter_customers], read off the fields of a row:
    the country criterion is inactive or the 'country' entry is the given
    text; no [min_age] is given or the 'age' entry reads as an integer that
    is at least [min_age]. *)
Definition country_matches (country : value) (c : record) : Prop :=
  truthy country = false ∨ c !! "country" = Some country.

Definition age_reaches (min_age : option Z) (c : record) : Prop :=
  match min_age with
  | None => True
  | Some m =>
      ∃ s n, c !! "age" = Some (VStr s) ∧ int_of_string s = Some n ∧ m ≤ n
  end.

(** The number written by the decimal digits [d], read from the left after
    the digits that gave [acc]. *)
Fixpoint uint_value (acc : Z) (d : Decimal.uint) : Z :=
  match d with
  | Decimal.Nil => acc
  | Decimal.D0 d => uint_value (10 * acc + 0) d
  | Decimal.D1 d => uint_value (10 * acc + 1) d
  | Decimal.D2 d => uint_value (10 * acc + 2) d
  | Decimal.D3 d => uint_value (10 * acc + 3) d
  | Decimal.D4 d => uint_value (10 * acc + 4) d
  | Decimal.D5 d => uint_value (10 * acc + 5) d
  | Decimal.D6 d => uint_value (10 * acc + 6) d
  | Decimal.D7 d => uint_value (10 * acc + 7) d
  | Decimal.D8 d => uint_value (10 * acc + 8) d
  | Decimal.D9 d => uint_value (10 * acc + 9) d
  end.

(** The first line that [process_command] prints. *)
Definition loaded_line (args : Namespace) (customers : list record) : string :=
  "Loaded " ++ str (Z.of_nat (length customers)) ++ " customers from " ++
  input args ++ newline.

(** An environment for examples: one input file, and one path that cannot
    be written. *)
Definition test_env : Cli.env :=
  {| Cli.read_csv := λ path,
       if String.eqb path "in.csv" then Cli.Rows test_customers
       else Cli.NotFound;
     Cli.write_json := λ path data,
       if String.eqb path "/" then Cli.WriteError "[Errno 21] Is a directory: '/'"
       else Cli.Written |}.

Definition mk_args (i o : string) (x : value) (m : option Z) : Namespace :=
  {| input := i; output := o; country := x; min_age := m |}.

(** ** Reasoning about comprehensions *)

Section Comprehension.
Context {A : Type} (cond : A → result bool).

Lemma comprehension_cons_Ok c l b rest :
  cond c = Ok b → comprehension cond l = Ok rest →
  comprehension cond (c :: l) = Ok (if b then c :: rest else rest).
Proof. intros Hc Hl. simpl. by rewrite Hc, Hl. Qed.

(** A condition that never raises on [l] makes the comprehension a filter. *)
Lemma comprehension_pure (f : A → bool) l :
  (∀ c, c ∈ l → cond c = Ok (f c)) →
  comprehension cond l = Ok (List.filter f l).
Proof.
  induction l as [|c l IH]; intros Hf; [done|].
  rewrite (comprehension_cons_Ok c l (f c) (List.filter f l)).
  - simpl. by destruct (f c).
  - apply Hf. by left.
  - apply IH. intros c' Hc'. apply Hf. by right.
Qed.

(** A comprehension that returns has evaluated its condition on every
    element without an exception. *)
Lemma comprehension_Ok_inv l out :
  comprehension cond l = Ok out → ∀ c, c ∈ l → returns (cond c).
Proof.
  revert out. induction l as [|c l IH]; intros out Hout c' Hin.
  - by apply elem_of_nil in Hin.
  - simpl in Hout. destruct (cond c) as [b|e] eqn:Hc; [|done].
    simpl in Hout. destruct (comprehension cond l) as [rest|e] eqn:Hl; [|done].
    apply elem_of_cons in Hin as [->|Hin]; [by exists b|by eapply IH].
Qed.

(** One raising element is enough for the comprehension to raise. *)
Lemma comprehension_raises l c :
  c ∈ l → raises (cond c) → raises (comprehension cond l).
Proof.
  intros Hin Hr.
  destruct (comprehension cond l) as [out|e] eqn:Hl; [|by exists e].
  destruct (comprehension_Ok_inv l out Hl c Hin) as [b Hb].
  destruct Hr as [e He]. congruence.
Qed.
End Comprehension.

(** ** Facts about [List.filter] used below *)

Section ListFilter.
Context {A : Type}.
Implicit Types (f g : A → bool) (l : list A).

Lemma filter_sublist f l : List.filter f l `sublist_of` l.
Proof.
  induction l as [|x l IH]; simpl; [constructor|].
  destruct (f x); by constructor.
Qed.

Lemma elem_of_filter f l x : x ∈ List.filter f l ↔ x ∈ l ∧ f x = true.
Proof. rewrite !list_elem_of_In. apply filter_In. Qed.

Lemma filter_all f l : (∀ x, x ∈ l → f x = true) → List.filter f l = l.
Proof.
  induction l as [|x l IH]; intros Hf; simpl; [done|].
  rewrite (Hf x) by (by left). f_equal. apply IH.
  intros y Hy. apply Hf. by right.
Qed.

Lemma filter_agree f g l :
  (∀ x, x ∈ l → f x = g x) → List.filter f l = List.filter g l.
Proof.
  induction l as [|x l IH]; intros Hfg; simpl; [done|].
  rewrite (Hfg x) by (by left).
  rewrite IH; [done|]. intros y Hy. apply Hfg. by right.
Qed.

Lemma filter_compose f g l :
  List.filter g (List.filter f l) = List.filter (λ x, f x && g x) l.
Proof.
  induction l as [|x l IH]; simpl; [done|].
  destruct (f x); simpl; [|done]. destruct (g x); by rewrite IH.
Qed.

(** A boolean filter on a decided predicate is stdpp's [filter]. *)
Lemma filter_stdpp (P : A → Prop) `{!∀ x, Decision (P x)} l :
  List.filter (λ x, bool_decide (P x)) l = filter P l.
Proof.
  induction l as [|x l IH]; simpl; [done|].
  rewrite filter_cons, IH. by rewrite (decide_bool_decide (P x)).
Qed.
End ListFilter.

Lemma filter_customers_unfold customers country min_age :
  filter_customers customers country min_age =
  match min_age with
  | Some m => comprehension (age_cond m) (country_stage country customers)
  | None => Ok (country_stage country customers)
  end.
Proof. reflexivity. Qed.

Lemma country_stage_filter country customers :
  country_stage country customers =
  List.filter (country_verdict country) customers.
Proof.
  unfold country_stage, country_verdict.
  destruct (truthy country); simpl; [done|].
  symmetry. by apply filter_all.
Qed.

Lemma elem_of_country_stage country customers c :
  c ∈ country_stage country customers ↔
  c ∈ customers ∧ country_verdict country c = true.
Proof. rewrite country_stage_filter. apply elem_of_filter. Qed.

Lemma age_cond_returns_verdict m c :
  returns (age_cond m c) → age_cond m c = Ok (age_verdict m c).
Proof. intros [b Hb]. unfold age_verdict. by rewrite Hb. Qed.

(** Whenever [filter_customers] returns, it returns the rows of its input
    that satisfy both verdicts, in input order. *)
Lemma filter_customers_Ok customers country min_age out :
  filter_customers customers country min_age = Ok out →
  out = List.filter
          (λ c, country_verdict country c && min_age_verdict min_age c)
          customers.
Proof.
  rewrite filter_customers_unfold, <- filter_compose, <- country_stage_filter.
  destruct min_age as [m|]; simpl.
  - intros Hout.
    rewrite (comprehension_pure _ (age_verdict m)) in Hout;
      [by injection Hout as <-|].
    intros c Hc. apply age_cond_returns_verdict.
    by eapply comprehension_Ok_inv.
  - intros [= <-]. symmetry. by apply filter_all.
Qed.

(** It returns exactly when line 40 raises on no row that reaches it. *)
Lemma filter_customers_returns customers country m :
  returns (filter_customers customers country (Some m)) ↔
  ∀ c, c ∈ country_stage country customers → returns (age_cond m c).
Proof.
  rewrite filter_customers_unfold. split.
  - intros [out Hout] c Hc. by eapply comprehension_Ok_inv.
  - intros Hall. eexists. apply (comprehension_pure _ (age_verdict m)).
    intros c Hc. by apply age_cond_returns_verdict, Hall.
Qed.

Lemma filter_customers_elem customers country min_age out c :
  filter_customers customers country min_age = Ok out →
  c ∈ out ↔
  c ∈ customers ∧ country_verdict country c = true ∧
  min_age_verdict min_age c = true.
Proof.
  intros ->%filter_customers_Ok. rewrite elem_of_filter, andb_true_iff.
  tauto.
Qed.

(** ** [int] and surrounding white space *)

Section IntSpace.
Local Open Scope list_scope.
Implicit Types (c : ascii) (cs w : list ascii).

Lemma space_not_digit c :
  is_space c = true →
  digit_val c = None ∧ is_underscore c = false ∧
  c ≠ "-"%char ∧ c ≠ "+"%char.
Proof. destruct c as [[] [] [] [] [] [] [] []]; by compute. Qed.

Lemma skip_space_blank_l w cs :
  forallb is_space w = true → skip_space (w ++ cs) = skip_space cs.
Proof.
  induction w as [|c w IH]; simpl; [done|].
  intros [Hc Hw]%andb_true_iff. rewrite Hc. auto.
Qed.

Lemma skip_space_blank w : forallb is_space w = true → skip_space w = [].
Proof.
  intros Hw. rewrite <- (app_nil_r w) at 1. by rewrite skip_space_blank_l.
Qed.

(** Trailing white space is dropped when nothing else is left, and is
    otherwise carried along. *)
Lemma skip_space_blank_r cs w :
  forallb is_space w = true →
  skip_space (cs ++ w) =
  match skip_space cs with
  | [] => []
  | c :: t => c :: t ++ w
  end.
Proof.
  intros Hw. induction cs as [|c cs IH]; simpl.
  - by apply skip_space_blank.
  - by destruct (is_space c).
Qed.

Lemma scan_digits_blank_r cs : ∀ acc w,
  forallb is_space w = true →
  scan_digits acc (cs ++ w) =
  match scan_digits acc cs with
  | Some (n, rest) => Some (n, rest ++ w)
  | None => None
  end.
Proof.
  induction cs as [cs IH] using (induction_ltof1 _ (@length ascii)).
  unfold ltof in IH. intros acc w Hw.
  assert (Hhd : ∀ acc', scan_digits acc' w = Some (acc', w)).
  { intros acc'. destruct w as [|c w]; [done|]. simpl in *.
    apply andb_true_iff in Hw as [Hc _].
    destruct (space_not_digit c Hc) as (-> & -> & _). done. }
  assert (Hus : match w with
                | c' :: _ => digit_val c' = None
                | [] => True
                end).
  { destruct w as [|c w]; [done|]. simpl in Hw.
    apply andb_true_iff in Hw as [Hc _]. by apply space_not_digit. }
  destruct cs as [|c t]; [apply Hhd|]. simpl.
  destruct (digit_val c) as [d|]; [apply IH; simpl; lia || done|].
  destruct (is_underscore c); [|done].
  destruct t as [|c' t']; simpl.
  - destruct w as [|c' w]; [done|]. by rewrite Hus.
  - destruct (digit_val c') as [d|]; [|done]. apply IH; simpl; lia || done.
Qed.

Lemma count_digits_blank_r ds w :
  forallb is_space w = true → count_digits (ds ++ w) = count_digits ds.
Proof.
  intros Hw. induction ds as [|c t IH]; simpl.
  - destruct w as [|c w]; [done|]. simpl in *.
    apply andb_true_iff in Hw as [Hc _].
    by destruct (space_not_digit c Hc) as (-> & -> & _).
  - rewrite IH. done.
Qed.

Lemma scan_number_blank_r neg ds w :
  forallb is_space w = true →
  scan_number neg (ds ++ w) = scan_number neg ds.
Proof.
  intros Hw. unfold scan_number. destruct ds as [|c t].
  - destruct w as [|c w]; [done|]. simpl in *.
    apply andb_true_iff in Hw as [Hc _].
    by destruct (space_not_digit c Hc) as (-> & _).
  - rewrite (count_digits_blank_r (c :: t) w Hw).
    change ((c :: t) ++ w) with (c :: (t ++ w)). cbv beta iota.
    destruct (digit_val c) as [d|] eqn:Hd; [|done].
    rewrite (scan_digits_blank_r t d w Hw).
    destruct (scan_digits d t) as [[n rest]|]; [|done].
    rewrite (skip_space_blank_r rest w Hw).
    by destruct (skip_space rest).
Qed.

Lemma scan_sign_app c t w :
  scan_sign ((c :: t) ++ w) =
  (fst (scan_sign (c :: t)), snd (scan_sign (c :: t)) ++ w).
Proof. destruct c as [[] [] [] [] [] [] [] []]; done. Qed.

Lemma int_of_chars_blank_r cs w :
  forallb is_space w = true → int_of_chars (cs ++ w) = int_of_chars cs.
Proof.
  intros Hw. unfold int_of_chars. rewrite (skip_space_blank_r cs w Hw).
  destruct (skip_space cs) as [|c t] eqn:Hcs; [done|].
  change (c :: t ++ w) with ((c :: t) ++ w). rewrite scan_sign_app.
  destruct (scan_sign (c :: t)) as [neg ds]. simpl.
  by apply scan_number_blank_r.
Qed.

Lemma int_of_chars_blank_l w cs :
  forallb is_space w = true → int_of_chars (w ++ cs) = int_of_chars cs.
Proof. intros Hw. unfold int_of_chars. by rewrite skip_space_blank_l. Qed.
End IntSpace.

Lemma list_ascii_of_string_app (s t : string) :
  list_ascii_of_string (s ++ t) =
  (list_ascii_of_string s ++ list_ascii_of_string t)%list.
Proof. induction s as [|c s IH]; simpl; [done|]. by rewrite IH. Qed.

(** Decoding a text followed by another decodes the first, then the
    second. *)
Lemma utf8_decode_from_app bs1 bs2 : ∀ st cps1,
  utf8_decode_from st bs1 = Some cps1 →
  utf8_decode_from st (bs1 ++ bs2)%list =
  option_map (app cps1) (utf8_decode bs2).
Proof.
  induction bs1 as [|b t IH]; intros st cps1; simpl.
  - destruct st; [|done]. intros [= <-].
    unfold utf8_decode. by destruct (utf8_decode_from Start bs2).
  - assert (Hcons : ∀ n,
      option_map (cons n) (utf8_decode_from Start t) = Some cps1 →
      option_map (cons n) (utf8_decode_from Start (t ++ bs2)%list) =
      option_map (app cps1) (utf8_decode bs2)).
    { intros n. destruct (utf8_decode_from Start t) as [cps|] eqn:Ht; [|done].
      intros [= <-]. rewrite (IH Start cps Ht).
      by destruct (utf8_decode bs2). }
    destruct st as [|more bits least].
    + repeat case_match; try done; (by apply Hcons) || by apply IH.
    + repeat case_match; try done; (by apply Hcons) || by apply IH.
Qed.

Lemma utf8_decode_app bs1 bs2 cps1 cps2 :
  utf8_decode bs1 = Some cps1 → utf8_decode bs2 = Some cps2 →
  utf8_decode (bs1 ++ bs2)%list = Some (cps1 ++ cps2)%list.
Proof.
  intros H1 H2. unfold utf8_decode at 1.
  by rewrite (utf8_decode_from_app _ _ _ _ H1), H2.
Qed.

Lemma int_of_string_Some_decode s n :
  int_of_string s = Some n →
  ∃ cps, utf8_decode (list_ascii_of_string s) = Some cps ∧
         int_of_chars (List.map to_ascii cps) = Some n.
Proof.
  unfold int_of_string.
  destruct (utf8_decode (list_ascii_of_string s)) as [cps|]; [|done].
  intros Hn. by exists cps.
Qed.

Lemma forallb_compose {A B} (f : B → bool) (g : A → B) (l : list A) :
  forallb f (List.map g l) = forallb (λ x, f (g x)) l.
Proof. induction l as [|x l IH]; simpl; [done|]. by rewrite IH. Qed.

Lemma blank_decode w :
  blank w →
  ∃ cps, utf8_decode (list_ascii_of_string w) = Some cps ∧
         forallb is_space (List.map to_ascii cps) = true.
Proof.
  unfold blank.
  destruct (utf8_decode (list_ascii_of_string w)) as [cps|]; [|done].
  intros Hw. exists cps. split; [done|]. by rewrite forallb_compose.
Qed.

(** [int] ignores white space on both sides of a literal. *)
Lemma int_of_string_strip (w1 s w2 : string) (n : Z) :
  blank w1 → blank w2 → int_of_string s = Some n →
  int_of_string (w1 ++ s ++ w2) = Some n.
Proof.
  intros (c1 & Hd1 & Hb1)%blank_decode (c2 & Hd2 & Hb2)%blank_decode
    (cs & Hd & Hn)%int_of_string_Some_decode.
  unfold int_of_string. rewrite !list_ascii_of_string_app.
  rewrite (utf8_decode_app _ _ c1 (cs ++ c2)%list Hd1
             (utf8_decode_app _ _ cs c2 Hd Hd2)).
  rewrite !List.map_app.
  by rewrite int_of_chars_blank_l, int_of_chars_blank_r.
Qed.

Lemma int_of_string_empty : int_of_string "" = None.
Proof. reflexivity. Qed.

(** ** The 'age' and 'country' fields of a row *)

Lemma truthy_age_false c :
  truthy (get c "age") = false ↔ age_absent c ∨ age_empty c.
Proof.
  unfold get, age_absent, age_empty.
  destruct (c !! "age") as [[|s]|]; simpl; try by intuition.
  rewrite negb_false_iff, String.eqb_eq. split.
  - intros ->. by right.
  - intros [[?|?]|[= ->]]; done.
Qed.

Lemma age_cond_absent m c :
  age_absent c ∨ age_empty c → age_cond m c = Ok false.
Proof. intros H%truthy_age_false. unfold age_cond. by rewrite H. Qed.

Lemma age_cond_text m c s :
  c !! "age" = Some (VStr s) → s ≠ "" →
  age_cond m c =
  match int_of_string s with
  | Some n => Ok (m <=? n)%Z
  | None => Raise (ValueError s)
  end.
Proof.
  intros Hs Hne. unfold age_cond, get. rewrite Hs. simpl.
  apply String.eqb_neq in Hne. rewrite Hne. simpl.
  by destruct (int_of_string s).
Qed.

Lemma age_cond_int m c s n :
  c !! "age" = Some (VStr s) → int_of_string s = Some n →
  age_cond m c = Ok (m <=? n)%Z.
Proof.
  intros Hs Hn. rewrite (age_cond_text m c s Hs), Hn; [done|].
  intros ->. by rewrite int_of_string_empty in Hn.
Qed.

Lemma age_absent_excluded customers country m c out :
  age_absent c ∨ age_empty c →
  filter_customers customers country (Some m) = Ok out → c ∉ out.
Proof.
  intros Hbad Hout Hc.
  apply (filter_customers_elem _ _ _ _ c Hout) in Hc as (_ & _ & Hv).
  simpl in Hv. unfold age_verdict in Hv.
  by rewrite (age_cond_absent m c Hbad) in Hv.
Qed.

Lemma age_rejected_raises customers country m c s :
  c ∈ customers → country_verdict country c = true →
  c !! "age" = Some (VStr s) → s ≠ "" → int_of_string s = None →
  raises (filter_customers customers country (Some m)).
Proof.
  intros Hin Hcv Hs Hne Hint. rewrite filter_customers_unfold.
  apply (comprehension_raises _ _ c).
  - by apply elem_of_country_stage.
  - exists (ValueError s). by rewrite (age_cond_text m c s Hs Hne), Hint.
Qed.

Lemma country_cond_lookup x c :
  country_cond (VStr x) c = bool_decide (c !! "country" = Some (VStr x)).
Proof.
  unfold country_cond, get.
  destruct (c !! "country") as [[|t]|]; case_bool_decide as H;
    simplify_eq/=; try done.
  - apply String.eqb_refl.
  - apply String.eqb_neq. congruence.
Qed.

Example test_filter_by_country :
  filter_customers test_customers (VStr "USA") None =
  Ok [customer "John" "25" "USA"; customer "Bob" "18" "USA";
      customer "Alice" "22" "USA"].
Proof. reflexivity. Qed.

Example test_filter_by_min_age :
  filter_customers test_customers VNone (Some 21) =
  Ok [customer "John" "25" "USA"; customer "Jane" "30" "Canada";
      customer "Alice" "22" "USA"].
Proof. reflexivity. Qed.

Example test_filter_by_country_and_min_age :
  filter_customers test_customers (VStr "USA") (Some 21) =
  Ok [customer "John" "25" "USA"; customer "Alice" "22" "USA"].
Proof. reflexivity. Qed.

Example country_is_case_sensitive :
  filter_customers test_customers (VStr "usa") None = Ok [].
Proof. reflexivity. Qed.

(** Non-ASCII white space and digits, and the limit on the number of
    digits: U+00A0 before 25, the Arabic-Indic digits three and zero, and
    literals of 4300 and of 4301 digits. *)
Example int_unicode_and_limit :
  int_of_string (String "194" (String "160" "25")) = Some 25 ∧
  int_of_string
    (String "217" (String "163" (String "217" (String "160" ""))))
    = Some 30 ∧
  is_Some (int_of_string (string_of_list_ascii (repeat "1"%char 4300))) ∧
  int_of_string (string_of_list_ascii (repeat "1"%char 4301)) = None.
Proof.
  split_and!; [by vm_compute..| |by vm_compute].
  eexists. vm_compute. reflexivity.
Qed.

Example int_examples :
  int_of_string "25" = Some 25 ∧ int_of_string " 25 " = Some 25 ∧
  int_of_string "-7" = Some (-7) ∧ int_of_string "1_000" = Some 1000 ∧
  int_of_string "thirty" = None ∧ int_of_string "" = None ∧
  int_of_string "2 5" = None ∧ int_of_string "25.0" = None ∧
  int_of_string "   " = None ∧ int_of_string "1__0" = None.
Proof. repeat split. Qed.

Section ComprehensionMore.
Context {A : Type}.
Implicit Types (cond : A → result bool) (l : list A).

(** A comprehension over a concatenation runs over the first part, then over
    the second. *)
Lemma comprehension_app cond l1 l2 :
  comprehension cond (l1 ++ l2)%list =
  (a ←ᵣ comprehension cond l1;
   b ←ᵣ comprehension cond l2;
   Ok (a ++ b)%list).
Proof.
  induction l1 as [|c l1 IH]; simpl.
  - by destruct (comprehension cond l2).
  - destruct (cond c) as [b|e]; simpl; [|done]. rewrite IH.
    destruct (comprehension cond l1) as [a|e]; simpl; [|done].
    destruct (comprehension cond l2) as [a'|e]; simpl; [|done].
    by destruct b.
Qed.

(** The exception of a comprehension is the exception of its condition on
    one of the elements. *)
Lemma comprehension_Raise_inv cond l e :
  comprehension cond l = Raise e → ∃ c, c ∈ l ∧ cond c = Raise e.
Proof.
  induction l as [|c l IH]; simpl; [done|].
  destruct (cond c) as [b|e'] eqn:Hc; simpl.
  - destruct (comprehension cond l) as [rest|e'']; simpl; [done|].
    intros [= ->]. destruct IH as (c' & Hin & Hc'); [done|].
    exists c'. split; [by right|done].
  - intros [= ->]. exists c. split; [by left|done].
Qed.

(** Two conditions that raise on the same elements, with the same
    exceptions, make the comprehension raise alike. *)
Lemma comprehension_Raise_agree cond1 cond2 l e :
  (∀ c e', c ∈ l → cond1 c = Raise e' ↔ cond2 c = Raise e') →
  comprehension cond1 l = Raise e → comprehension cond2 l = Raise e.
Proof.
  induction l as [|c l IH]; simpl; [done|]. intros Hagree.
  assert (Hc := Hagree c). 
  assert (IH' := IH (λ c' e' Hin, Hagree c' e' (list_elem_of_further _ _ _ Hin))).
  destruct (cond1 c) as [b1|e1] eqn:H1; simpl.
  - destruct (cond2 c) as [b2|e2] eqn:H2; simpl.
    + destruct (comprehension cond1 l) as [r1|e1]; simpl; [done|].
      intros [= ->]. by rewrite IH'.
    + assert (Ok b1 = @Raise bool e2) by (apply Hc; [by left|done]). done.
  - intros [= ->].
    assert (cond2 c = Raise e) as -> by (apply Hc; [by left|done]). done.
Qed.
End ComprehensionMore.

Lemma age_cond_Raise_inv m c e :
  age_cond m c = Raise e →
  ∃ s, c !! "age" = Some (VStr s) ∧ s ≠ "" ∧ int_of_string s = None ∧
       e = ValueError s.
Proof.
  intros He. destruct (c !! "age") as [[|s]|] eqn:Hs.
  - rewrite age_cond_absent in He by (left; by right). done.
  - destruct (decide (s = "")) as [->|Hne].
    + rewrite age_cond_absent in He by (by right). done.
    + rewrite (age_cond_text m c s Hs Hne) in He.
      destruct (int_of_string s) eqn:Hn; [done|].
      injection He as <-. by exists s.
  - rewrite age_cond_absent in He by (left; by left). done.
Qed.

Lemma age_rejected_ValueError customers country m c s :
  c ∈ customers → country_verdict country c = true →
  c !! "age" = Some (VStr s) → s ≠ "" → int_of_string s = None →
  ∃ t, filter_customers customers country (Some m) = Raise (ValueError t).
Proof.
  intros Hin Hcv Hs Hne Hint.
  destruct (age_rejected_raises customers country m c s) as [e He]; [done..|].
  rewrite filter_customers_unfold in He.
  destruct (comprehension_Raise_inv _ _ _ He) as (c' & _ & Hc').
  apply age_cond_Raise_inv in Hc' as (t & _ & _ & _ & ->).
  exists t. by rewrite filter_customers_unfold.
Qed.

(** ** Properties of [filter_customers] *)

(** C5.  With neither criterion supplied the rows come back as they were
    given: same elements, same order, same multiplicity. *)
Theorem filter_customers_identity (customers : list record) :
  filter_customers customers VNone None = Ok customers.
Proof. reflexivity. Qed.

(** C10.  An empty [country] text is falsy on line 35, so the country
    comprehension is skipped and, without [min_age], every row is returned. *)
Theorem filter_customers_empty_country (customers : list record) :
  filter_customers customers (VStr "") None = Ok customers.
Proof. reflexivity. Qed.

(** C2.  Whatever the criteria, the rows that [filter_customers] returns
    form a subsequence of its input: each is an input row, unchanged, in
    input order, and none occurs more often than in the input. *)
Theorem filter_customers_subsequence
    (customers : list record) (country : value) (min_age : option Z)
    (out : list record) :
  filter_customers customers country min_age = Ok out →
  out `sublist_of` customers.
Proof. intros ->%filter_customers_Ok. apply filter_sublist. Qed.

Lemma filter_customers_subsequence_witness :
  [customer "John" "25" "USA"; customer "Alice" "22" "USA"]
    `sublist_of` test_customers.
Proof.
  apply (filter_customers_subsequence test_customers (VStr "USA") (Some 21)).
  reflexivity.
Defined.

(** C6.  Filtering the result again with the same criteria changes nothing;
    when the first call raises, so does the composition. *)
Theorem filter_customers_idempotent
    (customers : list record) (country : value) (min_age : option Z) :
  (out ←ᵣ filter_customers customers country min_age;
   filter_customers out country min_age) =
  filter_customers customers country min_age.
Proof.
  destruct (filter_customers customers country min_age) as [out|e] eqn:Hout;
    simpl; [|done].
  assert (Hstage : country_stage country out = out).
  { rewrite country_stage_filter. apply filter_all. intros c Hc.
    by apply (filter_customers_elem _ _ _ _ c Hout) in Hc as (_ & ? & _). }
  rewrite filter_customers_unfold, Hstage.
  destruct min_age as [m|]; [|done].
  rewrite (comprehension_pure _ (λ _, true)); [by rewrite filter_all|].
  intros c Hc.
  apply (filter_customers_elem _ _ _ _ c Hout) in Hc as (Hin & Hcv & Hav).
  simpl in Hav. rewrite <- Hav. apply age_cond_returns_verdict.
  rewrite filter_customers_unfold in Hout.
  eapply comprehension_Ok_inv; [done|]. by apply elem_of_country_stage.
Qed.

(** *** The country criterion *)

(** C3, as the code has it.  A non-empty [country] text keeps exactly the
    rows whose 'country' entry is that very text (a row without the entry
    does not match), before any age check; with [min_age] absent these rows
    are the result. *)
Theorem filter_customers_country_exact
    (customers : list record) (x : string) (min_age : option Z) :
  x ≠ "" →
  filter_customers customers (VStr x) min_age =
    filter_customers
      (filter (λ c : record, c !! "country" = Some (VStr x)) customers)
      VNone min_age ∧
  filter_customers customers (VStr x) None =
    Ok (filter (λ c : record, c !! "country" = Some (VStr x)) customers).
Proof.
  intros Hx%String.eqb_neq.
  assert (Hstage : country_stage (VStr x) customers =
    filter (λ c : record, c !! "country" = Some (VStr x)) customers).
  { unfold country_stage. simpl. rewrite Hx. simpl.
    rewrite <- filter_stdpp. apply filter_agree.
    intros c _. apply country_cond_lookup. }
  rewrite !filter_customers_unfold, Hstage. by destruct min_age.
Qed.

Lemma filter_customers_country_exact_witness :
  "USA" ≠ "" ∧
  filter_customers test_customers (VStr "USA") None =
    Ok (filter (λ c : record, c !! "country" = Some (VStr "USA"))
          test_customers).
Proof.
  split; [discriminate|].
  apply (filter_customers_country_exact test_customers "USA" None).
  discriminate.
Defined.

(** C3 as stated fails for the empty text: the Canadian row is retained
    although its 'country' entry is not the empty text. *)
Lemma empty_country_retains_nonmatching :
  let jane := customer "Jane" "30" "Canada" in
  filter_customers [jane] (VStr "") None = Ok [jane] ∧
  jane !! "country" ≠ Some (VStr "").
Proof. split; [reflexivity|discriminate]. Qed.

(** *** The min_age criterion on malformed 'age' entries *)

(** C1, as the code has it.  With [min_age] supplied, a row whose 'age' entry
    is absent or empty is left out and line 40 does not raise on it; a row
    whose 'age' entry is non-empty text that [int] rejects makes line 40
    raise [ValueError], and with it [filter_customers] whenever such a row
    reaches line 40; the call returns when every row has an absent or empty
    'age' entry or one that [int] accepts. *)
Theorem filter_customers_malformed_age
    (customers : list record) (country : value) (m : Z) (c : record) :
  c ∈ customers →
  (age_absent c ∨ age_empty c →
     age_cond m c = Ok false ∧
     ∀ out, filter_customers customers country (Some m) = Ok out → c ∉ out) ∧
  (∀ s, c !! "age" = Some (VStr s) → s ≠ "" → int_of_string s = None →
     age_cond m c = Raise (ValueError s) ∧
     (country_verdict country c = true →
      ∃ t, filter_customers customers country (Some m)
           = Raise (ValueError t))) ∧
  ((∀ c', c' ∈ customers →
      age_absent c' ∨ age_empty c' ∨
      ∃ s n, c' !! "age" = Some (VStr s) ∧ int_of_string s = Some n) →
   returns (filter_customers customers country (Some m))).
Proof.
  intros Hin. split; [|split].
  - intros Hbad. split; [by apply age_cond_absent|].
    intros out. by apply age_absent_excluded.
  - intros s Hs Hne Hint. split.
    + by rewrite (age_cond_text m c s Hs Hne), Hint.
    + intros Hcv. by eapply age_rejected_ValueError.
  - intros Hall. apply filter_customers_returns.
    intros c' [Hc' _]%elem_of_country_stage.
    destruct (Hall c' Hc') as [Ha|[He|(s & n & Hs & Hn)]].
    + eexists. apply age_cond_absent. by left.
    + eexists. apply age_cond_absent. by right.
    + eexists. by eapply age_cond_int.
Qed.

Lemma filter_customers_malformed_age_witness :
  let eve := customer "Eve" "" "USA" in
  age_cond 21 eve = Ok false ∧
  ∀ out, filter_customers [eve; customer "John" "25" "USA"] VNone (Some 21)
         = Ok out → eve ∉ out.
Proof.
  intros eve.
  apply (filter_customers_malformed_age
           [eve; customer "John" "25" "USA"] VNone 21 eve).
  - by left.
  - right. reflexivity.
Defined.

(** C1 as stated fails on text that is not a number: the call raises instead
    of returning the list without the row. *)
Lemma nonnumeric_age_raises :
  let eve := customer "Eve" "thirty" "USA" in
  filter_customers [eve] VNone (Some 21) = Raise (ValueError "thirty") ∧
  ¬ returns (filter_customers [eve] VNone (Some 21)).
Proof. split; [reflexivity|]. intros [out Hout]. discriminate. Qed.

(** C7, as the code has it.  [min_age = 0] is a criterion like any other:
    among the rows that reach line 40, one whose 'age' entry reads as an
    integer [n ≥ 0] is kept, one whose 'age' entry is absent, empty or a
    negative integer is left out, and one whose 'age' entry is non-empty text
    that [int] rejects makes the call raise [ValueError]. *)
Theorem filter_customers_min_age_zero
    (customers : list record) (country : value) (c : record) :
  c ∈ customers → country_verdict country c = true →
  (∀ s n, c !! "age" = Some (VStr s) → int_of_string s = Some n →
     (0 ≤ n →
      age_cond 0 c = Ok true ∧
      ∀ out, filter_customers customers country (Some 0) = Ok out → c ∈ out) ∧
     (n < 0 →
      ∀ out, filter_customers customers country (Some 0) = Ok out → c ∉ out)) ∧
  (age_absent c ∨ age_empty c →
     age_cond 0 c = Ok false ∧
     ∀ out, filter_customers customers country (Some 0) = Ok out → c ∉ out) ∧
  (∀ s, c !! "age" = Some (VStr s) → s ≠ "" → int_of_string s = None →
     ∃ t, filter_customers customers country (Some 0) = Raise (ValueError t)).
Proof.
  intros Hin Hcv. split; [|split].
  - intros s n Hs Hn. pose proof (age_cond_int 0 c s n Hs Hn) as Hcond.
    split.
    + intros Hge. apply Z.leb_le in Hge. rewrite Hge in Hcond.
      split; [done|]. intros out Hout.
      apply (filter_customers_elem _ _ _ _ c Hout).
      repeat split; [done..|]. simpl. unfold age_verdict. by rewrite Hcond.
    + intros Hlt out Hout Hc.
      apply (filter_customers_elem _ _ _ _ c Hout) in Hc as (_ & _ & Hv).
      simpl in Hv. unfold age_verdict in Hv. rewrite Hcond in Hv.
      apply Z.leb_le in Hv. lia.
  - intros Hbad. split; [by apply age_cond_absent|].
    intros out. by apply age_absent_excluded.
  - intros s Hs Hne Hint. by eapply age_rejected_ValueError.
Qed.

Lemma filter_customers_min_age_zero_witness :
  let baby := customer "Zoe" "0" "USA" in
  age_cond 0 baby = Ok true ∧
  ∀ out, filter_customers [customer "Eve" "" "USA"; baby] VNone (Some 0)
         = Ok out → baby ∈ out.
Proof.
  intros baby.
  refine (proj1 (proj1 (filter_customers_min_age_zero
    [customer "Eve" "" "USA"; baby] VNone baby _ _) "0" 0 _ _) _).
  - right. by left.
  - reflexivity.
  - reflexivity.
  - reflexivity.
  - lia.
Defined.

(** C7 as stated fails on an 'age' entry that is not a number: with
    [min_age = 0] the row is not left out, the call raises. *)
Lemma min_age_zero_nonnumeric_raises :
  let eve := customer "Eve" "thirty" "USA" in
  filter_customers [customer "John" "25" "USA"; eve] VNone (Some 0)
    = Raise (ValueError "thirty") ∧
  ¬ returns (filter_customers [customer "John" "25" "USA"; eve] VNone (Some 0)).
Proof. split; [reflexivity|]. intros [out Hout]. discriminate. Qed.

(** [0] is not read as "no criterion": it removes the row without an age. *)
Example min_age_zero_is_active :
  filter_customers [customer "Eve" "" "USA"; customer "Zoe" "0" "USA"]
    VNone (Some 0) = Ok [customer "Zoe" "0" "USA"].
Proof. reflexivity. Qed.

(** C8, as the code has it.  White space, ASCII or not, around an 'age' text
    that [int] reads as a number is ignored by [int]: line 40 does not raise
    on such a row and decides it by the number read, so the row is kept
    exactly when it passes the country stage and its age is at least
    [min_age]. *)
Theorem filter_customers_padded_age
    (customers : list record) (country : value) (m : Z) (c : record)
    (w1 s w2 : string) (n : Z) :
  c ∈ customers →
  c !! "age" = Some (VStr (w1 ++ s ++ w2)) →
  blank w1 → blank w2 → int_of_string s = Some n →
  age_cond m c = Ok (m <=? n) ∧
  ∀ out, filter_customers customers country (Some m) = Ok out →
         (c ∈ out ↔ country_verdict country c = true ∧ m ≤ n).
Proof.
  intros Hin Hage Hw1 Hw2 Hn.
  assert (Hcond : age_cond m c = Ok (m <=? n)).
  { eapply age_cond_int; [done|]. by apply int_of_string_strip. }
  split; [done|]. intros out Hout.
  rewrite (filter_customers_elem _ _ _ _ c Hout). simpl.
  unfold age_verdict. rewrite Hcond, Z.leb_le. tauto.
Qed.

Lemma filter_customers_padded_age_witness :
  let ann := customer "Ann" " 25 " "USA" in
  age_cond 21 ann = Ok true ∧
  ∀ out, filter_customers [ann] (VStr "USA") (Some 21) = Ok out →
         (ann ∈ out ↔ country_verdict (VStr "USA") ann = true ∧ 21 ≤ 25).
Proof.
  intros ann.
  apply (filter_customers_padded_age [ann] (VStr "USA") 21 ann " " "25" " " 25).
  - by left.
  - reflexivity.
  - reflexivity.
  - reflexivity.
  - reflexivity.
Defined.

(** C8 as stated fails: the row whose 'age' entry is [" 25 "] is retained by
    [min_age = 21]. *)
Lemma padded_age_retained :
  let ann := customer "Ann" " 25 " "USA" in
  filter_customers [ann] VNone (Some 21) = Ok [ann] ∧
  filter_customers [ann] VNone (Some 21) ≠ Ok [].
Proof. split; [reflexivity|discriminate]. Qed.

(** *** The two criteria together *)

(** C4, as the code has it.  Whenever the age-only call returns, the call
    with both criteria returns too and equals the order-preserving
    intersection of the two single-criterion results. *)
Theorem filter_customers_conjunctive
    (customers : list record) (country : value) (min_age : option Z)
    (b : list record) :
  filter_customers customers VNone min_age = Ok b →
  filter_customers customers country min_age =
    conjunctive_rhs customers country min_age ∧
  filter_customers customers country min_age =
    Ok (intersection_preserving_order (country_stage country customers) b).
Proof.
  intros Hb. unfold conjunctive_rhs. rewrite Hb. simpl.
  enough (filter_customers customers country min_age =
    Ok (intersection_preserving_order (country_stage country customers) b))
    by done.
  assert (Hmem : ∀ c, c ∈ country_stage country customers →
    bool_decide (c ∈ b) = min_age_verdict min_age c).
  { intros c [Hc _]%elem_of_country_stage.
    apply eq_true_iff_eq.
    rewrite bool_decide_eq_true, (filter_customers_elem _ _ _ _ c Hb).
    unfold country_verdict. simpl. tauto. }
  unfold intersection_preserving_order.
  rewrite (filter_agree _ _ _ Hmem), filter_customers_unfold.
  destruct min_age as [m|]; simpl.
  - apply comprehension_pure. intros c [Hc _]%elem_of_country_stage.
    apply age_cond_returns_verdict.
    rewrite filter_customers_unfold in Hb.
    by eapply comprehension_Ok_inv.
  - by rewrite filter_all.
Qed.

Lemma filter_customers_conjunctive_witness :
  filter_customers test_customers (VStr "USA") (Some 21) =
    conjunctive_rhs test_customers (VStr "USA") (Some 21) ∧
  filter_customers test_customers (VStr "USA") (Some 21) =
    Ok (intersection_preserving_order
          (country_stage (VStr "USA") test_customers)
          [customer "John" "25" "USA"; customer "Jane" "30" "Canada";
           customer "Alice" "22" "USA"]).
Proof.
  apply (filter_customers_conjunctive test_customers (VStr "USA") (Some 21)).
  reflexivity.
Defined.

(** C4 as stated fails: the age check of the two-criteria call runs only on
    the rows that passed the country check, so that call returns here while
    the age-only call, and with it the intersection, raises. *)
Lemma conjunctive_rhs_raises :
  let jane := customer "Jane" "thirty" "Canada" in
  filter_customers [jane] (VStr "USA") (Some 21) = Ok [] ∧
  conjunctive_rhs [jane] (VStr "USA") (Some 21) = Raise (ValueError "thirty") ∧
  filter_customers [jane] (VStr "USA") (Some 21) ≠
    conjunctive_rhs [jane] (VStr "USA") (Some 21).
Proof. repeat split; discriminate. Qed.

(** ** The status line of [process_command] *)

(** A non-zero [min_age] is reported. *)
Example status_reports_both :
  stdout (process_command
    {| input := "in.csv"; output := "out.json";
       country := VStr "USA"; min_age := Some 21 |} test_customers) =
  "Loaded 4 customers from in.csv" ++ newline ++
  "Filtered to 2 customers (country=USA, min_age=21)" ++ newline ++
  "Results saved to out.json" ++ newline.
Proof. reflexivity. Qed.

(** C9 does not hold for [min_age = 0]: line 68 tests the truthiness of
    [args.min_age], so the status line of a run with [min_age = 0] is the one
    of a run without [min_age], although line 38 applies the criterion. *)
Theorem status_omits_min_age_zero :
  (∀ (i o : string) (x : value) (filtered : list record),
     filtered_line
       {| input := i; output := o; country := x; min_age := Some 0 |} filtered =
     filtered_line
       {| input := i; output := o; country := x; min_age := None |} filtered) ∧
  (let args := {| input := "in.csv"; output := "out.json";
                  country := VNone; min_age := Some 0 |} in
   let rows := [customer "Eve" "" "USA"; customer "Zoe" "0" "USA"] in
   process_command args rows =
   {| stdout :=
        "Loaded 2 customers from in.csv" ++ newline ++
        "Filtered to 1 customers" ++ newline ++
        "Results saved to out.json" ++ newline;
      outcome := Ok [customer "Zoe" "0" "USA"] |}).
Proof. split; reflexivity. Qed.

(** ** Further properties of [filter_customers] *)

Lemma country_verdict_matches country c :
  country_verdict country c = true ↔ country_matches country c.
Proof.
  unfold country_verdict, country_matches.
  destruct (truthy country) eqn:Ht; simpl; [|by intuition].
  destruct country as [|x]; [done|]. rewrite country_cond_lookup.
  rewrite bool_decide_eq_true. split; [by right|by intros [?|?]].
Qed.

Lemma min_age_verdict_reaches min_age c :
  (∀ m, min_age = Some m → returns (age_cond m c)) →
  min_age_verdict min_age c = true ↔ age_reaches min_age c.
Proof.
  destruct min_age as [m|]; simpl; [|done]. intros Hret.
  destruct (Hret m eq_refl) as [b Hb]. unfold age_verdict. rewrite Hb.
  destruct (c !! "age") as [[|s]|] eqn:Hs.
  - rewrite age_cond_absent in Hb by (left; by right).
    injection Hb as <-. split; [done|]. by intros (s & n & ? & _).
  - destruct (decide (s = "")) as [->|Hne].
    + rewrite age_cond_absent in Hb by (by right).
      injection Hb as <-. split; [done|].
      intros (s & n & [= <-] & Hn & _). by rewrite int_of_string_empty in Hn.
    + rewrite (age_cond_text m c s Hs Hne) in Hb.
      destruct (int_of_string s) as [n|] eqn:Hn; [|done].
      injection Hb as <-. rewrite Z.leb_le. split.
      * intros Hle. by exists s, n.
      * intros (s' & n' & [= <-] & Hn' & Hle). congruence.
  - rewrite age_cond_absent in Hb by (left; by left).
    injection Hb as <-. split; [done|]. by intros (s & n & ? & _).
Qed.

(** X1.  When [filter_customers] returns, a row is in the result exactly
    when it is a row of the input that meets both row tests, and the result
    is the input with the other rows taken out: order and repetitions are
    those of the input. *)
Theorem filter_customers_retains
    (customers : list record) (country : value) (min_age : option Z)
    (out : list record) :
  filter_customers customers country min_age = Ok out →
  (∀ c, c ∈ out ↔
        c ∈ customers ∧ country_matches country c ∧ age_reaches min_age c) ∧
  out = List.filter (λ c, bool_decide (c ∈ out)) customers.
Proof.
  intros Hout. split.
  - intros c. rewrite (filter_customers_elem _ _ _ _ c Hout).
    rewrite country_verdict_matches. split.
    + intros (Hin & Hcm & Hv). repeat split; [done..|].
      apply min_age_verdict_reaches; [|done]. intros m ->.
      rewrite filter_customers_unfold in Hout.
      eapply comprehension_Ok_inv; [done|].
      apply elem_of_country_stage. by rewrite country_verdict_matches.
    + intros (Hin & Hcm & Hr). repeat split; [done..|].
      apply min_age_verdict_reaches; [|done]. intros m ->.
      rewrite filter_customers_unfold in Hout.
      eapply comprehension_Ok_inv; [done|].
      apply elem_of_country_stage. by rewrite country_verdict_matches.
  - rewrite (filter_customers_Ok _ _ _ _ Hout) at 1.
    apply filter_agree. intros c Hin. apply eq_true_iff_eq.
    rewrite bool_decide_eq_true, (filter_customers_elem _ _ _ _ c Hout).
    rewrite andb_true_iff. tauto.
Qed.

Lemma filter_customers_retains_witness :
  let out := [customer "John" "25" "USA"; customer "Alice" "22" "USA"] in
  (∀ c, c ∈ out ↔
        c ∈ test_customers ∧ country_matches (VStr "USA") c ∧
        age_reaches (Some 21) c) ∧
  out = List.filter (λ c, bool_decide (c ∈ out)) test_customers.
Proof.
  apply (filter_customers_retains test_customers (VStr "USA") (Some 21)).
  reflexivity.
Defined.

Lemma country_stage_app country l1 l2 :
  country_stage country (l1 ++ l2)%list =
  (country_stage country l1 ++ country_stage country l2)%list.
Proof. rewrite !country_stage_filter. apply List.filter_app. Qed.

Lemma filter_customers_concat rows1 rows2 country min_age :
  filter_customers (rows1 ++ rows2)%list country min_age =
  (a ←ᵣ filter_customers rows1 country min_age;
   b ←ᵣ filter_customers rows2 country min_age;
   Ok (a ++ b)%list).
Proof.
  rewrite !filter_customers_unfold, country_stage_app.
  destruct min_age as [m|]; [apply comprehension_app|done].
Qed.

(** X2.  Rows are judged one by one: filtering a concatenation is filtering
    the first part, then the second, and concatenating; an exception of the
    first part comes first. *)
Theorem filter_customers_app
    (rows1 rows2 : list record) (country : value) (min_age : option Z) :
  filter_customers (rows1 ++ rows2)%list country min_age =
  (a ←ᵣ filter_customers rows1 country min_age;
   b ←ᵣ filter_customers rows2 country min_age;
   Ok (a ++ b)%list).
Proof. apply filter_customers_concat. Qed.

(** X3.  The only exception that leaves [filter_customers] is the
    [ValueError] of [int] on the 'age' text of an input row: it needs
    [min_age] to be given, and a row that meets the country test and whose
    'age' entry is non-empty text that is no integer literal.  In particular
    [int] is never reached with [None] or with the empty text. *)
Theorem filter_customers_raise_inv
    (customers : list record) (country : value) (min_age : option Z)
    (e : exn) :
  filter_customers customers country min_age = Raise e →
  ∃ m c s,
    min_age = Some m ∧ c ∈ customers ∧ country_matches country c ∧
    c !! "age" = Some (VStr s) ∧ s ≠ "" ∧ int_of_string s = None ∧
    e = ValueError s.
Proof.
  rewrite filter_customers_unfold. destruct min_age as [m|]; [|done].
  intros (c & [Hin Hcv]%elem_of_country_stage & Hc)%comprehension_Raise_inv.
  apply age_cond_Raise_inv in Hc as (s & Hs & Hne & Hn & ->).
  exists m, c, s. by rewrite <- country_verdict_matches.
Qed.

Lemma filter_customers_raise_inv_witness :
  let eve := customer "Eve" "thirty" "USA" in
  ∃ m c s,
    Some 21 = Some m ∧ c ∈ [customer "John" "25" "USA"; eve] ∧
    country_matches (VStr "USA") c ∧
    c !! "age" = Some (VStr s) ∧ s ≠ "" ∧ int_of_string s = None ∧
    ValueError "thirty" = ValueError s.
Proof.
  intros eve.
  apply (filter_customers_raise_inv
           [customer "John" "25" "USA"; eve] (VStr "USA") (Some 21)).
  reflexivity.
Defined.

(** X4.  The exception names the first offending row: when the rows before
    it are filtered without an exception, the call raises the [ValueError] of
    that row's 'age' text, whatever follows it. *)
Theorem filter_customers_first_offender
    (before after : list record) (c : record) (country : value) (m : Z)
    (s : string) :
  returns (filter_customers before country (Some m)) →
  country_matches country c →
  c !! "age" = Some (VStr s) → s ≠ "" → int_of_string s = None →
  filter_customers (before ++ c :: after)%list country (Some m) =
  Raise (ValueError s).
Proof.
  intros [a Ha] Hcm%country_verdict_matches Hs Hne Hn.
  rewrite filter_customers_concat, Ha. cbn [bind].
  rewrite (filter_customers_concat [c] after).
  assert (filter_customers [c] country (Some m) = Raise (ValueError s)) as ->;
    [|done].
  rewrite filter_customers_unfold, country_stage_filter. simpl.
  rewrite Hcm. simpl. by rewrite (age_cond_text m c s Hs Hne), Hn.
Qed.

Lemma filter_customers_first_offender_witness :
  filter_customers
    ([customer "John" "25" "USA"] ++
     customer "Eve" "thirty" "USA" :: [customer "Bob" "n/a" "USA"])%list
    VNone (Some 21) = Raise (ValueError "thirty").
Proof.
  apply filter_customers_first_offender.
  - by eexists.
  - by left.
  - reflexivity.
  - discriminate.
  - reflexivity.
Defined.

(** X5.  One call with both criteria is the country-only call followed by
    the age-only call on its result; and when the age-only call on the input
    returns, calling in the other order gives the same. *)
Theorem filter_customers_two_calls
    (customers : list record) (country : value) (min_age : option Z) :
  filter_customers customers country min_age =
    (a ←ᵣ filter_customers customers country None;
     filter_customers a VNone min_age) ∧
  (∀ b, filter_customers customers VNone min_age = Ok b →
        filter_customers b country None =
        filter_customers customers country min_age).
Proof.
  split; [done|]. intros b Hb.
  pose proof (filter_customers_Ok _ _ _ _ Hb) as ->.
  rewrite !filter_customers_unfold, !country_stage_filter.
  rewrite filter_compose.
  destruct min_age as [m|]; simpl.
  - rewrite (comprehension_pure _ (age_verdict m)).
    + rewrite filter_compose. f_equal. apply filter_agree.
      intros c _. by rewrite andb_comm.
    + intros c [Hc _]%elem_of_filter. apply age_cond_returns_verdict.
      rewrite filter_customers_unfold in Hb.
      by eapply comprehension_Ok_inv.
  - done.
Qed.

Lemma filter_customers_two_calls_witness :
  filter_customers
    [customer "John" "25" "USA"; customer "Jane" "30" "Canada";
     customer "Alice" "22" "USA"] (VStr "USA") None =
  filter_customers test_customers (VStr "USA") (Some 21).
Proof.
  apply (proj2 (filter_customers_two_calls test_customers (VStr "USA")
                  (Some 21))).
  reflexivity.
Defined.

Lemma age_cond_Raise_any m1 m2 c e :
  age_cond m1 c = Raise e ↔ age_cond m2 c = Raise e.
Proof.
  assert (∀ m m', age_cond m c = Raise e → age_cond m' c = Raise e) as H.
  { intros m m' (s & Hs & Hne & Hn & ->)%age_cond_Raise_inv.
    by rewrite (age_cond_text m' c s Hs Hne), Hn. }
  split; apply H.
Qed.

Lemma filter_customers_Raise_any customers country m1 m2 e :
  filter_customers customers country (Some m1) = Raise e →
  filter_customers customers country (Some m2) = Raise e.
Proof.
  rewrite !filter_customers_unfold.
  apply comprehension_Raise_agree. intros c e' _. apply age_cond_Raise_any.
Qed.

(** X6.  Whether the call raises, and which exception, does not depend on
    the value of [min_age], only on its being given. *)
Theorem filter_customers_raise_any_min_age
    (customers : list record) (country : value) (m1 m2 : Z) (e : exn) :
  filter_customers customers country (Some m1) = Raise e ↔
  filter_customers customers country (Some m2) = Raise e.
Proof. split; apply filter_customers_Raise_any. Qed.

Lemma age_verdict_mono m1 m2 c :
  m1 ≤ m2 → age_verdict m2 c = true → age_verdict m1 c = true.
Proof.
  intros Hle. unfold age_verdict, age_cond.
  destruct (truthy (get c "age")); [|done].
  destruct (int (get c "age")) as [n|e]; simpl; [|done].
  rewrite !Z.leb_le. lia.
Qed.

(** A higher threshold can be applied to the result of a lower one. *)
Lemma filter_customers_tighten customers country m1 m2 :
  m1 ≤ m2 →
  filter_customers customers country (Some m2) =
  (a ←ᵣ filter_customers customers country (Some m1);
   filter_customers a country (Some m2)).
Proof.
  intros Hle.
  destruct (filter_customers customers country (Some m1)) as [a|e] eqn:Ha;
    cbn [bind].
  - assert (Hret : ∀ c, c ∈ country_stage country customers →
      returns (age_cond m2 c)).
    { intros c Hc.
      destruct (age_cond m2 c) as [b|e] eqn:Hb; [by eexists|].
      apply (age_cond_Raise_any m2 m1) in Hb.
      rewrite filter_customers_unfold in Ha.
      destruct (comprehension_Ok_inv _ _ _ Ha c Hc) as [b' Hb']. congruence. }
    assert (Hstage : country_stage country a = a).
    { rewrite country_stage_filter. apply filter_all. intros c Hc.
      by apply (filter_customers_elem _ _ _ _ c Ha) in Hc as (_ & ? & _). }
    pose proof (filter_customers_Ok _ _ _ _ Ha) as Haeq.
    rewrite <- filter_compose, <- country_stage_filter in Haeq.
    rewrite !filter_customers_unfold, Hstage.
    rewrite !(comprehension_pure _ (age_verdict m2)).
    + f_equal. rewrite Haeq, filter_compose. apply filter_agree.
      intros c _. destruct (age_verdict m2 c) eqn:H2.
      * cbn [min_age_verdict]. by rewrite (age_verdict_mono m1 m2 c Hle H2).
      * by rewrite andb_false_r.
    + intros c Hc. apply age_cond_returns_verdict, Hret.
      rewrite Haeq in Hc. by apply elem_of_filter in Hc as [? _].
    + intros c Hc. by apply age_cond_returns_verdict, Hret.
  - by apply (filter_customers_Raise_any customers country m1 m2).
Qed.


(** A lower threshold changes nothing on the result of a higher one. *)
Lemma filter_customers_loosen customers country m1 m2 a :
  m2 ≤ m1 →
  filter_customers customers country (Some m1) = Ok a →
  filter_customers a country (Some m2) = Ok a.
Proof.
  intros Hle Ha.
  assert (Hstage : country_stage country a = a).
  { rewrite country_stage_filter. apply filter_all. intros c Hc.
    by apply (filter_customers_elem _ _ _ _ c Ha) in Hc as (_ & ? & _). }
  rewrite filter_customers_unfold, Hstage.
  rewrite (comprehension_pure _ (λ _, true)); [by rewrite filter_all|].
  intros c Hc.
  apply (filter_customers_elem _ _ _ _ c Ha) in Hc as (Hin & Hcv & Hav).
  cbn [min_age_verdict] in Hav.
  rewrite <- (age_verdict_mono m2 m1 c Hle Hav).
  apply age_cond_returns_verdict.
  destruct (age_cond m2 c) as [b|e] eqn:Hb; [by eexists|].
  apply (age_cond_Raise_any m2 m1) in Hb.
  unfold age_verdict in Hav. by rewrite Hb in Hav.
Qed.

(** X7.  Two thresholds in a row amount to the larger one: filtering with
    [m1] and then the result with [m2] is filtering once with
    [Z.max m1 m2], exceptions included. *)
Theorem filter_customers_thresholds
    (customers : list record) (country : value) (m1 m2 : Z) :
  (a ←ᵣ filter_customers customers country (Some m1);
   filter_customers a country (Some m2)) =
  filter_customers customers country (Some (Z.max m1 m2)).
Proof.
  destruct (Z.le_ge_cases m1 m2) as [Hle|Hle].
  - rewrite Z.max_r by done. symmetry. by apply filter_customers_tighten.
  - rewrite Z.max_l by done.
    destruct (filter_customers customers country (Some m1)) as [a|e] eqn:Ha;
      cbn [bind]; [|done].
    by apply (filter_customers_loosen customers country m1 m2).
Qed.


(** *** [int] on particular texts *)




Section IntOfStr.
Local Open Scope list_scope.

Lemma scan_digits_uint d : ∀ acc,
  scan_digits acc (list_ascii_of_string (NilEmpty.string_of_uint d)) =
  Some (uint_value acc d, []).
Proof. induction d; intros acc; simpl; [done|apply IHd..]. Qed.

Lemma uint_value_pos d : ∀ p,
  uint_value (Z.pos p) d = Z.pos (Pos.of_uint_acc d p).
Proof.
  induction d; intros p; simpl; [done|..];
    match goal with
    | |- uint_value ?a _ = Z.pos (Pos.of_uint_acc _ ?q) =>
        replace a with (Z.pos q) by lia
    end; apply IHd.
Qed.

Lemma uint_value_0 d : uint_value 0 d = Z.of_N (Pos.of_uint d).
Proof.
  induction d; simpl; [done|done|..];
    match goal with
    | |- uint_value ?a _ = _ => change a with (Z.pos (Z.to_pos a))
    end; by rewrite uint_value_pos.
Qed.

Lemma count_digits_digit c t :
  is_Some (digit_val c) → count_digits (c :: t) = (1 + count_digits t)%N.
Proof. intros [d Hd]. simpl. by rewrite Hd. Qed.

Lemma count_digits_uint d :
  count_digits (list_ascii_of_string (NilEmpty.string_of_uint d)) =
  N.of_nat (String.length (NilEmpty.string_of_uint d)).
Proof.
  induction d; [done|..];
    cbn [NilEmpty.string_of_uint list_ascii_of_string String.length];
    rewrite count_digits_digit by (by eexists);
    rewrite IHd, Nat2N.inj_succ; lia.
Qed.

Lemma uint_within_limit d :
  (String.length (NilZero.string_of_uint d) ≤ 4300)%nat →
  (count_digits (list_ascii_of_string (NilZero.string_of_uint d))
   <=? int_max_str_digits)%N = true.
Proof.
  intros Hlen. apply N.leb_le. unfold int_max_str_digits.
  destruct d; [done|..]; unfold NilZero.string_of_uint in *;
    rewrite count_digits_uint; lia.
Qed.

Lemma scan_number_uint neg d :
  (String.length (NilZero.string_of_uint d) ≤ 4300)%nat →
  scan_number neg (list_ascii_of_string (NilZero.string_of_uint d)) =
  Some (if neg then - Z.of_N (Pos.of_uint d) else Z.of_N (Pos.of_uint d)).
Proof.
  intros Hlen%uint_within_limit. rewrite <- uint_value_0.
  unfold scan_number. rewrite Hlen.
  destruct d; [by destruct neg|..]; simpl; by rewrite scan_digits_uint.
Qed.

Lemma int_of_chars_uint d :
  (String.length (NilZero.string_of_uint d) ≤ 4300)%nat →
  int_of_chars (list_ascii_of_string (NilZero.string_of_uint d)) =
  Some (Z.of_N (Pos.of_uint d)).
Proof.
  intros Hlen. rewrite <- (scan_number_uint false d Hlen). by destruct d.
Qed.

(** Text of ASCII characters is its own decoding, left as it is by the
    replacement of white space and digits. *)
Lemma int_of_string_ascii s :
  Forall (λ c, (N_of_ascii c < 128)%N) (list_ascii_of_string s) →
  int_of_string s = int_of_chars (list_ascii_of_string s).
Proof.
  unfold int_of_string, utf8_decode. intros Hs.
  assert (utf8_decode_from Start (list_ascii_of_string s) =
          Some (List.map N_of_ascii (list_ascii_of_string s))) as ->.
  { induction Hs as [|c cs Hc _ IH]; simpl; [done|].
    apply N.ltb_lt in Hc. by rewrite Hc, IH. }
  f_equal. rewrite List.map_map.
  induction Hs as [|c cs Hc _ IH]; simpl; [done|]. f_equal; [|done].
  unfold to_ascii. apply N.ltb_lt in Hc. rewrite Hc.
  apply ascii_N_embedding.
Qed.

Lemma uint_text_ascii d :
  Forall (λ c, (N_of_ascii c < 128)%N)
    (list_ascii_of_string (NilZero.string_of_uint d)).
Proof.
  assert (Forall (λ c, (N_of_ascii c < 128)%N)
            (list_ascii_of_string (NilEmpty.string_of_uint d))) as H.
  { induction d; simpl; constructor; done. }
  destruct d; try done. by repeat constructor.
Qed.

(** [int(str(n))] is [n], for [n] of at most 4300 digits. *)
Lemma int_of_string_str n :
  (String.length (str (Z.abs n)) ≤ 4300)%nat →
  int_of_string (str n) = Some n.
Proof.
  rewrite <- (DecimalZ.of_to n) at 3. unfold str.
  destruct n as [|p|p]; simpl; intros Hlen.
  - reflexivity.
  - rewrite int_of_string_ascii by apply uint_text_ascii.
    by apply int_of_chars_uint.
  - rewrite int_of_string_ascii
      by (constructor; [done|apply uint_text_ascii]).
    unfold int_of_chars. simpl. by apply (scan_number_uint true).
Qed.
End IntOfStr.

(** X9.  A row whose 'age' entry is the decimal text of an integer [n], as
    [str] writes it, with no more digits than [int] accepts (4300), never
    makes line 40 raise and is kept exactly when it meets the country test
    and [min_age ≤ n]. *)
Theorem decimal_age_decided
    (customers : list record) (country : value) (m n : Z) (c : record)
    (out : list record) :
  (String.length (str (Z.abs n)) ≤ 4300)%nat →
  c ∈ customers → c !! "age" = Some (VStr (str n)) →
  age_cond m c = Ok (m <=? n) ∧
  (filter_customers customers country (Some m) = Ok out →
   (c ∈ out ↔ country_matches country c ∧ m ≤ n)).
Proof.
  intros Hlen Hin Hage.
  assert (Hcond : age_cond m c = Ok (m <=? n)).
  { eapply age_cond_int; [done|]. by apply int_of_string_str. }
  split; [done|]. intros Hout.
  rewrite (filter_customers_elem _ _ _ _ c Hout), country_verdict_matches.
  simpl. unfold age_verdict. rewrite Hcond, Z.leb_le. tauto.
Qed.

Lemma decimal_age_decided_witness :
  let bob := customer "Bob" "-18" "USA" in
  age_cond (-21) bob = Ok true ∧
  (filter_customers [bob] (VStr "USA") (Some (-21)) = Ok [bob] →
   (bob ∈ [bob] ↔ country_matches (VStr "USA") bob ∧ -21 ≤ -18)).
Proof.
  intros bob.
  apply (decimal_age_decided [bob] (VStr "USA") (-21) (-18) bob).
  - vm_compute. lia.
  - by left.
  - reflexivity.
Defined.

(** ** The status line and the filter *)

Lemma filter_descriptions_nil args :
  filter_descriptions args = [] ↔
  truthy (country args) = false ∧ int_truthy (min_age args) = false.
Proof.
  unfold filter_descriptions.
  destruct (truthy (country args)), (int_truthy (min_age args)); simpl;
    split; (done || by intros [? ?]).
Qed.

(** X10.  A status line without a filter description means that nothing was
    filtered out, unless [min_age] is 0: in every other run that prints no
    description, all loaded rows are handed to [save_results]. *)
Theorem no_description_means_unfiltered
    (args : Namespace) (customers : list record) :
  filter_descriptions args = [] → min_age args ≠ Some 0 →
  outcome (Main.process_command args customers) = Ok customers ∧
  filtered_line args customers =
    "Filtered to " ++ str (Z.of_nat (length customers)) ++ " customers" ++
    newline.
Proof.
  intros Hnil Hm. unfold filtered_line. rewrite Hnil. split; [|done].
  apply filter_descriptions_nil in Hnil as [Hc Hi].
  assert (min_age args = None) as Hnone.
  { destruct (min_age args) as [k|]; [|done]. simpl in Hi.
    apply negb_false_iff, Z.eqb_eq in Hi. by subst. }
  unfold Main.process_command, filter_customers. by rewrite Hc, Hnone.
Qed.

Lemma no_description_means_unfiltered_witness :
  let args := {| input := "in.csv"; output := "out.json";
                 country := VStr ""; min_age := None |} in
  outcome (Main.process_command args test_customers) = Ok test_customers ∧
  filtered_line args test_customers =
    "Filtered to " ++ str (Z.of_nat (length test_customers)) ++
    " customers" ++ newline.
Proof.
  intros args. apply (no_description_means_unfiltered args test_customers).
  - reflexivity.
  - discriminate.
Defined.

(** ** Runs of the program *)

Lemma string_app_assoc (s t u : string) : (s ++ t) ++ u = s ++ t ++ u.
Proof.
  induction s as [|a s IH]; [done|].
  change (String a ((s ++ t) ++ u) = String a (s ++ t ++ u)). by rewrite IH.
Qed.

Lemma string_app_nil_r (s : string) : s ++ "" = s.
Proof.
  induction s as [|a s IH]; [done|].
  change (String a (s ++ "") = String a s). by rewrite IH.
Qed.

(** Every run of the [process] subcommand, by what the environment answers
    and what the filter does. *)
Lemma run_process_cases w help args :
  Cli.run_main w help (Cli.Process args) =
  match Cli.read_csv w (input args) with
  | Cli.NotFound =>
      ({| Cli.out := "";
          Cli.err := "Error: Input file '" ++ input args ++ "' not found." ++
                     newline;
          Cli.saved := [] |}, inr (Cli.SystemExit 1))
  | Cli.ReadError e =>
      ({| Cli.out := "";
          Cli.err := "Error reading input file: " ++ e ++ newline;
          Cli.saved := [] |}, inr (Cli.SystemExit 1))
  | Cli.Rows rows =>
      match filter_customers rows (country args) (min_age args) with
      | Raise e =>
          ({| Cli.out := loaded_line args rows; Cli.err := "";
              Cli.saved := [] |}, inr (Cli.Uncaught e))
      | Ok filtered =>
          match Cli.write_json w (output args) filtered with
          | Cli.WriteError e =>
              ({| Cli.out := loaded_line args rows ++
                             filtered_line args filtered;
                  Cli.err := "Error writing output file: " ++ e ++ newline;
                  Cli.saved := [] |}, inr (Cli.SystemExit 1))
          | Cli.Written =>
              ({| Cli.out := stdout (Main.process_command args rows);
                  Cli.err := "";
                  Cli.saved := [(output args, filtered)] |}, inl tt)
          end
      end
  end.
Proof.
  unfold Cli.run_main, Cli.main, Cli.process_command, Cli.load_customers.
  destruct (Cli.read_csv w (input args)) as [rows| |e];
    [|by rewrite <- ?string_app_assoc..].
  unfold Main.process_command, loaded_line, filtered_line.
  unfold Cli.save_results, Cli.seq, Cli.ret, Cli.print, Cli.print_end,
    Cli.eprint, Cli.sys_exit, Cli.dumped, Cli.call, Cli.no_effects.
  cbn -[String.append str join filter_descriptions filter_customers].
  destruct (filter_customers rows (country args) (min_age args))
    as [filtered|e]; [|by rewrite !string_app_assoc].
  destruct (filter_descriptions args) as [|f fs];
    destruct (Cli.write_json w (output args) filtered) as [|e];
    cbn -[String.append str join];
    by rewrite ?string_app_nil_r, ?string_app_assoc.
Qed.


(** X12.  A run in which nothing fails prints the three lines of
    [Main.process_command], writes nothing to standard error, and makes one
    write: the filtered rows, to the path given by [--output]. *)
Theorem run_process_success
    (w : Cli.env) (help : string) (args : Namespace)
    (rows filtered : list record) :
  Cli.read_csv w (input args) = Cli.Rows rows →
  filter_customers rows (country args) (min_age args) = Ok filtered →
  Cli.write_json w (output args) filtered = Cli.Written →
  Cli.run_main w help (Cli.Process args) =
  ({| Cli.out := loaded_line args rows ++ filtered_line args filtered ++
                 "Results saved to " ++ output args ++ newline;
      Cli.err := "";
      Cli.saved := [(output args, filtered)] |}, inl tt) ∧
  Cli.out (Cli.run_main w help (Cli.Process args)).1 =
    stdout (Main.process_command args rows).
Proof.
  intros Hr Hf Hw. rewrite run_process_cases, Hr, Hf, Hw. split; [|done].
  unfold Main.process_command, loaded_line. rewrite Hf. cbn [stdout].
  by rewrite !string_app_assoc.
Qed.

Lemma run_process_success_witness :
  let args := mk_args "in.csv" "out.json" (VStr "USA") (Some 21) in
  let filtered := [customer "John" "25" "USA"; customer "Alice" "22" "USA"] in
  Cli.run_main test_env "usage" (Cli.Process args) =
  ({| Cli.out := loaded_line args test_customers ++
                 filtered_line args filtered ++
                 "Results saved to " ++ output args ++ newline;
      Cli.err := "";
      Cli.saved := [(output args, filtered)] |}, inl tt) ∧
  Cli.out (Cli.run_main test_env "usage" (Cli.Process args)).1 =
    stdout (Main.process_command args test_customers).
Proof.
  intros args filtered.
  apply (run_process_success test_env "usage" args test_customers filtered);
    reflexivity.
Defined.

(** X13.  When the input cannot be read the run stops before anything else
    happens: nothing on standard output, no write, status 1, and one line on
    standard error, which names the path when the file does not exist and
    carries the message of the exception otherwise. *)
Theorem run_process_input_failure
    (w : Cli.env) (help : string) (args : Namespace) :
  (Cli.read_csv w (input args) = Cli.NotFound →
   Cli.run_main w help (Cli.Process args) =
   ({| Cli.out := "";
       Cli.err := "Error: Input file '" ++ input args ++ "' not found." ++
                  newline;
       Cli.saved := [] |}, inr (Cli.SystemExit 1))) ∧
  (∀ e, Cli.read_csv w (input args) = Cli.ReadError e →
   Cli.run_main w help (Cli.Process args) =
   ({| Cli.out := "";
       Cli.err := "Error reading input file: " ++ e ++ newline;
       Cli.saved := [] |}, inr (Cli.SystemExit 1))).
Proof.
  split; [intros Hr|intros e Hr]; by rewrite run_process_cases, Hr.
Qed.

Lemma run_process_input_failure_witness :
  let args := mk_args "missing.csv" "out.json" VNone None in
  Cli.run_main test_env "usage" (Cli.Process args) =
  ({| Cli.out := "";
      Cli.err := "Error: Input file '" ++ input args ++ "' not found." ++
                 newline;
      Cli.saved := [] |}, inr (Cli.SystemExit 1)).
Proof.
  intros args.
  apply (proj1 (run_process_input_failure test_env "usage" args)).
  reflexivity.
Defined.

(** X14.  An exception of the filter is caught nowhere: the run has printed
    the "Loaded" line only, writes no file and no line of its own on
    standard error, and ends with that exception. *)
Theorem run_process_uncaught
    (w : Cli.env) (help : string) (args : Namespace)
    (rows : list record) (e : exn) :
  Cli.read_csv w (input args) = Cli.Rows rows →
  filter_customers rows (country args) (min_age args) = Raise e →
  Cli.run_main w help (Cli.Process args) =
  ({| Cli.out := loaded_line args rows; Cli.err := ""; Cli.saved := [] |},
   inr (Cli.Uncaught e)).
Proof. intros Hr Hf. by rewrite run_process_cases, Hr, Hf. Qed.

Lemma run_process_uncaught_witness :
  let w := {| Cli.read_csv := λ _, Cli.Rows [customer "Eve" "thirty" "USA"];
              Cli.write_json := λ _ _, Cli.Written |} in
  let args := mk_args "in.csv" "out.json" VNone (Some 21) in
  Cli.run_main w "usage" (Cli.Process args) =
  ({| Cli.out := loaded_line args [customer "Eve" "thirty" "USA"];
      Cli.err := ""; Cli.saved := [] |},
   inr (Cli.Uncaught (ValueError "thirty"))).
Proof.
  intros w args.
  apply (run_process_uncaught w "usage" args); reflexivity.
Defined.

(** X15.  When the output cannot be written the run has printed the
    "Loaded" and "Filtered" lines but not the "Results saved" line, reports
    the exception on standard error and ends with status 1. *)
Theorem run_process_write_failure
    (w : Cli.env) (help : string) (args : Namespace)
    (rows filtered : list record) (e : string) :
  Cli.read_csv w (input args) = Cli.Rows rows →
  filter_customers rows (country args) (min_age args) = Ok filtered →
  Cli.write_json w (output args) filtered = Cli.WriteError e →
  Cli.run_main w help (Cli.Process args) =
  ({| Cli.out := loaded_line args rows ++ filtered_line args filtered;
      Cli.err := "Error writing output file: " ++ e ++ newline;
      Cli.saved := [] |}, inr (Cli.SystemExit 1)).
Proof. intros Hr Hf Hw. by rewrite run_process_cases, Hr, Hf, Hw. Qed.

Lemma run_process_write_failure_witness :
  let args := mk_args "in.csv" "/" VNone None in
  Cli.run_main test_env "usage" (Cli.Process args) =
  ({| Cli.out := loaded_line args test_customers ++
                 filtered_line args test_customers;
      Cli.err := "Error writing output file: " ++
                 "[Errno 21] Is a directory: '/'" ++ newline;
      Cli.saved := [] |}, inr (Cli.SystemExit 1)).
Proof.
  intros args.
  apply (run_process_write_failure test_env "usage" args test_customers);
    reflexivity.
Defined.



(** *** Fewer rows, other orders *)

Lemma filter_sublist_mono {A} (f : A → bool) (l1 l2 : list A) :
  l1 `sublist_of` l2 → List.filter f l1 `sublist_of` List.filter f l2.
Proof.
  induction 1 as [|x l1 l2 _ IH|x l1 l2 _ IH]; simpl; [done|..];
    destruct (f x); by try constructor.
Qed.

Lemma filter_Permutation {A} (f : A → bool) (l1 l2 : list A) :
  l1 ≡ₚ l2 → List.filter f l1 ≡ₚ List.filter f l2.
Proof.
  induction 1 as [|x l1 l2 _ IH|x y l|l1 l2 l3 _ IH1 _ IH2]; simpl.
  - done.
  - destruct (f x); by rewrite IH.
  - destruct (f x), (f y); by try constructor.
  - by etrans.
Qed.

Lemma filter_customers_returns_on rows rows' country min_age out :
  (∀ c, c ∈ rows' → c ∈ rows) →
  filter_customers rows country min_age = Ok out →
  filter_customers rows' country min_age =
  Ok (List.filter
        (λ c, country_verdict country c && min_age_verdict min_age c) rows').
Proof.
  intros Hsub Hout.
  rewrite filter_customers_unfold, <- filter_compose, <- country_stage_filter.
  destruct min_age as [m|]; cbn [min_age_verdict].
  - apply comprehension_pure. intros c [Hc Hcv]%elem_of_country_stage.
    apply age_cond_returns_verdict.
    rewrite filter_customers_unfold in Hout.
    eapply comprehension_Ok_inv; [done|].
    apply elem_of_country_stage. auto.
  - by rewrite filter_all.
Qed.

(** X17.  Taking rows away cannot make the call fail and cannot add to the
    result: when the call returns on a list, it returns on every subsequence
    of it, with a subsequence of the result. *)
Theorem filter_customers_sublist
    (rows rows' : list record) (country : value) (min_age : option Z)
    (out : list record) :
  rows' `sublist_of` rows →
  filter_customers rows country min_age = Ok out →
  ∃ out', filter_customers rows' country min_age = Ok out' ∧
          out' `sublist_of` out.
Proof.
  intros Hsub Hout. eexists. split.
  - eapply filter_customers_returns_on; [|done].
    intros c Hc. by apply (sublist_subseteq _ _ Hsub).
  - rewrite (filter_customers_Ok _ _ _ _ Hout). by apply filter_sublist_mono.
Qed.

Lemma filter_customers_sublist_witness :
  ∃ out',
    filter_customers [customer "Bob" "18" "USA"; customer "Alice" "22" "USA"]
      (VStr "USA") (Some 21) = Ok out' ∧
    out' `sublist_of`
      [customer "John" "25" "USA"; customer "Alice" "22" "USA"].
Proof.
  apply (filter_customers_sublist test_customers).
  - do 2 apply sublist_cons. apply sublist_skip, sublist_skip, sublist_nil.
  - reflexivity.
Defined.

(** X18.  The order of the rows matters for the order of the result only:
    when the call returns on a list, it returns on every rearrangement of
    it, with the same rows rearranged. *)
Theorem filter_customers_Permutation
    (rows rows' : list record) (country : value) (min_age : option Z)
    (out : list record) :
  rows' ≡ₚ rows →
  filter_customers rows country min_age = Ok out →
  ∃ out', filter_customers rows' country min_age = Ok out' ∧ out' ≡ₚ out.
Proof.
  intros Hperm Hout. eexists. split.
  - eapply filter_customers_returns_on; [|done].
    intros c Hc. by rewrite <- Hperm.
  - rewrite (filter_customers_Ok _ _ _ _ Hout). by apply filter_Permutation.
Qed.

Lemma filter_customers_Permutation_witness :
  ∃ out',
    filter_customers
      [customer "Alice" "22" "USA"; customer "John" "25" "USA"]
      VNone (Some 21) = Ok out' ∧
    out' ≡ₚ [customer "John" "25" "USA"; customer "Alice" "22" "USA"].
Proof.
  apply (filter_customers_Permutation
           [customer "John" "25" "USA"; customer "Alice" "22" "USA"]).
  - apply perm_swap.
  - reflexivity.
Defined.

(** *** The description in the status line *)


